(** * hypercat-go: the catalogue data model and its JSON codec

    A shallow embedding of [hypercat.go].  Methods with a pointer receiver
    become functions that take the receiver's value and return the new one
    (next to the Go return value, where there is one).

    Modelling conventions.
    - A Go slice is the list of its elements.  The code only ranges over
      slices, appends to them, takes their length and assigns to indices in
      range, so a nil slice and an empty one behave alike and both are [[]].
    - A Go [error] is either a value made by [errors.New], identified with its
      message, or an error reported by [encoding/json].
    - [encoding/json] is not part of the package.  A wire text is represented
      by what the library hands to the code when it fills the temporary
      struct of [UnmarshalJSON]: either its own error, or the entries of the
      [items] array and of the [item-metadata] array, with the strings as
      the decoder hands them over.  What a string becomes when the encoder
      writes it and the decoder reads it back is [json_string]: valid UTF-8
      is unchanged, any other byte becomes U+FFFD. *)

From stdpp Require Import base list strings.

(** ** Constants *)

(** DescriptionRel is the URI for the hasDescription relationship *)
Definition DescriptionRel : string := "urn:X-hypercat:rels:hasDescription:en".

(** ContentTypeRel is the URI for the isContentType relationship *)
Definition ContentTypeRel : string := "urn:X-hypercat:rels:isContentType".

(** SupportsSearchRel is the URI for the supportsSearch relationship *)
Definition SupportsSearchRel : string := "urn:X-hypercat:rels:supportsSearch".

(** The double-quote character that the error messages put around a name. *)
Definition dquote : string :=
  String (Ascii.Ascii false true false false false true false false) EmptyString.

(** ** Errors *)

Inductive error : Type :=
  | errors_New (text : string)   (* errors.New(text) *)
  | json_error.                  (* a syntax or type error of encoding/json *)

(** [errors.New(`"` + DescriptionRel + `" is a mandatory metadata element`)] *)
Definition MissingDescription : error :=
  errors_New (dquote +:+ DescriptionRel +:+ dquote +:+ " is a mandatory metadata element").

(** [errors.New(`An item with href: "` + href + `" is a already defined within the catalogue`)] *)
Definition DuplicateHref (href : string) : error :=
  errors_New ("An item with href: " +:+ dquote +:+ href +:+ dquote
              +:+ " is a already defined within the catalogue").

(** [errors.New(`An item with href: "` + href + `" was not found within the catalogue`)] *)
Definition ItemNotFound (href : string) : error :=
  errors_New ("An item with href: " +:+ dquote +:+ href +:+ dquote
              +:+ " was not found within the catalogue").

(** ** Relations *)

(** Modelled from the spec: the declaration of the type [Rel] is not in
    [hypercat.go]; a relation is a pair of a key [Rel] and a value [Val].
    The Go type [Metadata] is a slice of [Rel], here [list Rel.t]. *)
Module Rel.
Record t : Type := mk { Rel : string; Val : string }.

#[global] Instance eq_dec : EqDecision t.
Proof. solve_decision. Defined.
End Rel.

(** ** The wire *)

(** The JSON object of an item: its [href] attribute and its metadata array. *)
Record wireItem : Type := mkWireItem {
  wire_href : string;
  wire_item_metadata : list Rel.t
}.

(** A wire text as [encoding/json] sees it. *)
Inductive wire : Type :=
  | Malformed
  | Document (items : list wireItem) (item_metadata : list Rel.t).

(** ** Items *)

Module Item.
(** Modelled from the spec: the type [Item] and its methods live in a file
    that is absent; an item is an href, a description and a relation store
    that excludes the description relation. *)
Record t : Type := mk {
  Href : string;
  Metadata : list Rel.t;
  Description : string
}.

Definition set_Href (v : string) (i : t) : t :=
  mk v (Metadata i) (Description i).
Definition set_Metadata (v : list Rel.t) (i : t) : t :=
  mk (Href i) v (Description i).
Definition set_Description (v : string) (i : t) : t :=
  mk (Href i) (Metadata i) v.

(** The zero value [Item{}]. *)
Definition zero : t := mk EmptyString [] EmptyString.

(** Modelled from the spec: the encoder of an item is absent; it starts
    from the store, appends the description relation when the description
    is not empty, and emits the href as an attribute of its own. *)
Definition MarshalJSON (i : t) : wireItem * option error :=
  let metadata := Metadata i in
  let metadata :=
    if decide (Description i ≠ EmptyString)
    then metadata ++ [Rel.mk DescriptionRel (Description i)]
    else metadata in
  (mkWireItem (Href i) metadata, None).

(** Modelled from the spec: the decoder of an item is absent; it applies
    the algorithm of the catalogue to the item's metadata array: entries
    with the reserved key set the description, the others are appended to
    the store, and an empty description at the end is an error. *)
Definition UnmarshalJSON (b : wireItem) (i : t) : t * option error :=
  let i := set_Href (wire_href b) i in
  let i :=
    foldl (fun i rel =>
             if decide (Rel.Rel rel = DescriptionRel)
             then set_Description (Rel.Val rel) i
             else set_Metadata (Metadata i ++ [rel]) i)
          i (wire_item_metadata b) in
  if decide (Description i = EmptyString)
  then (i, Some MissingDescription)
  else (i, None).
End Item.

(** Modelled from the spec: [NewItem(href, description)] constructs an item
    with an empty relation store. *)
Definition NewItem (href description : string) : Item.t :=
  Item.mk href [] description.

(** ** encoding/json on the two anonymous structs of the codec *)

(** [json.Marshal] of a slice of items: each element through its own
    [MarshalJSON]; the first error aborts. *)
Fixpoint json_Marshal_Items (items : list Item.t) : list wireItem * option error :=
  match items with
  | [] => ([], None)
  | i :: rest =>
      match Item.MarshalJSON i with
      | (_, Some err) => ([], Some err)
      | (w, None) =>
          match json_Marshal_Items rest with
          | (_, Some err) => ([], Some err)
          | (ws, None) => (w :: ws, None)
          end
      end
  end.

(** [json.Unmarshal] into a slice of items: each element into a fresh item
    through its own [UnmarshalJSON]; the first error aborts. *)
Fixpoint json_Unmarshal_Items (items : list wireItem) : list Item.t + error :=
  match items with
  | [] => inl []
  | w :: rest =>
      match Item.UnmarshalJSON w Item.zero with
      | (_, Some err) => inr err
      | (i, None) =>
          match json_Unmarshal_Items rest with
          | inr err => inr err
          | inl its => inl (i :: its)
          end
      end
  end.

(** The local type [tempCat] of [UnmarshalJSON]. *)
Record tempCat : Type := mkTempCat {
  tempCat_Items : list Item.t;
  tempCat_Metadata : list Rel.t
}.

(** [json.Unmarshal(b, &t)] for [t := tempCat{}]. *)
Definition json_Unmarshal_tempCat (b : wire) : tempCat + error :=
  match b with
  | Malformed => inr json_error
  | Document items item_metadata =>
      match json_Unmarshal_Items items with
      | inr err => inr err
      | inl its => inl (mkTempCat its item_metadata)
      end
  end.

(** ** The catalogue *)

Module HyperCat.
Record t : Type := mk {
  Items : list Item.t;
  Metadata : list Rel.t;
  Description : string
}.

Definition set_Items (v : list Item.t) (h : t) : t :=
  mk v (Metadata h) (Description h).
Definition set_Metadata (v : list Rel.t) (h : t) : t :=
  mk (Items h) v (Description h).
Definition set_Description (v : string) (h : t) : t :=
  mk (Items h) (Metadata h) v.

(** The zero value [HyperCat{}]. *)
Definition zero : t := mk [] [] EmptyString.

(** AddRel adds a Rel object to a catalogue.  This may result in duplicated
    Rel keys. *)
Definition AddRel (rel val : string) (h : t) : t :=
  set_Metadata (Metadata h ++ [Rel.mk rel val]) h.

(** The loop of [ReplaceRel]: [n] iterations are left, the next one is at
    index [i]; the element is read from the slice as it is then. *)
Fixpoint ReplaceRel_range (rel val : string) (i n : nat) (h : t) : t :=
  match n with
  | 0 => h
  | S n' =>
      match Metadata h !! i with
      | None => h
      | Some relationship =>
          let h :=
            if decide (Rel.Rel relationship = rel)
            then set_Metadata (<[i := Rel.mk rel val]> (Metadata h)) h
            else h in
          ReplaceRel_range rel val (S i) n' h
      end
  end.

(** ReplaceRel attempts to replace the value of a specific Rel object if it
    is attached to this catalogue.  If the Rel key isn't found this will
    have no effect. *)
Definition ReplaceRel (rel val : string) (h : t) : t :=
  ReplaceRel_range rel val 0 (length (Metadata h)) h.

(** The loop of [AddItem] over the items that are left: the error it
    returns, if any. *)
Fixpoint AddItem_range (item : Item.t) (items : list Item.t) : option error :=
  match items with
  | [] => None
  | i :: rest =>
      if decide (Item.Href item = Item.Href i)
      then Some (DuplicateHref (Item.Href item))
      else AddItem_range item rest
  end.

(** AddItem adds an Item to a catalogue.  Returns an error if we try to add
    an Item whose href is already defined within the catalogue. *)
Definition AddItem (item : Item.t) (h : t) : t * option error :=
  match AddItem_range item (Items h) with
  | Some err => (h, Some err)
  | None => (set_Items (Items h ++ [item]) h, None)
  end.

(** The loop of [ReplaceItem]: [rest] are the items from [index] on; the
    catalogue after the assignment, if the loop returns from inside. *)
Fixpoint ReplaceItem_range (newItem : Item.t) (index : nat)
    (rest : list Item.t) (h : t) : option t :=
  match rest with
  | [] => None
  | oldItem :: rest' =>
      if decide (Item.Href newItem = Item.Href oldItem)
      then Some (set_Items (<[index := newItem]> (Items h)) h)
      else ReplaceItem_range newItem (S index) rest' h
  end.

(** ReplaceItem replaces an item within a catalogue.  Returns an error if
    we try to replace an Item that isn't defined within the catalogue. *)
Definition ReplaceItem (newItem : Item.t) (h : t) : t * option error :=
  match ReplaceItem_range newItem 0 (Items h) h with
  | Some h' => (h', None)
  | None => (h, Some (ItemNotFound (Item.Href newItem)))
  end.

(** MarshalJSON returns the JSON encoding of a HyperCat.  When the encoder
    of an item reports an error, no text is returned with it. *)
Definition MarshalJSON (h : t) : wire * option error :=
  let metadata := Metadata h in
  let metadata :=
    if decide (Description h ≠ EmptyString)
    then metadata ++ [Rel.mk DescriptionRel (Description h)]
    else metadata in
  match json_Marshal_Items (Items h) with
  | (_, Some err) => (Malformed, Some err)
  | (items, None) => (Document items metadata, None)
  end.

(** One iteration of the loop of [UnmarshalJSON]. *)
Definition UnmarshalJSON_step (h : t) (rel : Rel.t) : t :=
  if decide (Rel.Rel rel = DescriptionRel)
  then set_Description (Rel.Val rel) h
  else set_Metadata (Metadata h ++ [rel]) h.

(** UnmarshalJSON is the required function for structs that implement the
    Unmarshaler interface.  The items that the library decoded into the
    temporary struct are not assigned to the receiver. *)
Definition UnmarshalJSON (b : wire) (h : t) : t * option error :=
  match json_Unmarshal_tempCat b with
  | inr err => (h, Some err)
  | inl t =>
      let h := foldl UnmarshalJSON_step h (tempCat_Metadata t) in
      if decide (Description h = EmptyString)
      then (h, Some MissingDescription)
      else (h, None)
  end.

(** The loop of [Rels]: [rels[i] = rel.Rel] for the entries from [i] on. *)
Fixpoint Rels_range (i : nat) (rest : list Rel.t) (rels : list string) : list string :=
  match rest with
  | [] => rels
  | rel :: rest' => Rels_range (S i) rest' (<[i := Rel.Rel rel]> rels)
  end.

(** Rels returns a slice containing all the Rel values of catalogue's
    metadata. *)
Definition Rels (h : t) : list string :=
  let rels := replicate (length (Metadata h)) EmptyString in
  Rels_range 0 (Metadata h) rels.

(** Vals returns a slice of all values that match the given rel value. *)
Definition Vals (key : string) (h : t) : list string :=
  let vals := [] in
  foldl (fun vals rel =>
           if decide (Rel.Rel rel = key) then vals ++ [Rel.Val rel] else vals)
        vals (Metadata h).
End HyperCat.

(** NewHyperCat is a constructor function that creates and returns a HyperCat
    instance. *)
Definition NewHyperCat (description : string) : HyperCat.t :=
  HyperCat.mk [] [] description.

(** Parse parses a HyperCat catalogue string, and builds an in memory
    HyperCat instance; the catalogue is nil when the error is not. *)
Definition Parse (str : wire) : option HyperCat.t * option error :=
  let cat := HyperCat.zero in
  match HyperCat.UnmarshalJSON str cat with
  | (_, Some err) => (None, Some err)
  | (cat, None) => (Some cat, None)
  end.

(** ** Sequences of public operations *)

(** A call of one of the public operations on a catalogue. *)
Inductive op : Type :=
  | OpAddRel (rel val : string)
  | OpReplaceRel (rel val : string)
  | OpAddItem (item : Item.t)
  | OpReplaceItem (item : Item.t)
  | OpUnmarshalJSON (b : wire).

(** The catalogue after the call; an error it returns is dropped here. *)
Definition step (h : HyperCat.t) (o : op) : HyperCat.t :=
  match o with
  | OpAddRel rel val => HyperCat.AddRel rel val h
  | OpReplaceRel rel val => HyperCat.ReplaceRel rel val h
  | OpAddItem item => fst (HyperCat.AddItem item h)
  | OpReplaceItem item => fst (HyperCat.ReplaceItem item h)
  | OpUnmarshalJSON b => fst (HyperCat.UnmarshalJSON b h)
  end.

Definition run (ops : list op) (h : HyperCat.t) : HyperCat.t :=
  foldl step h ops.

(** The call is one of the four mutators (not a decode). *)
Definition is_mutator (o : op) : bool :=
  match o with
  | OpUnmarshalJSON _ => false
  | _ => true
  end.

(** An item handed to the call has a non-empty description. *)
Definition item_described (o : op) : bool :=
  match o with
  | OpAddItem item | OpReplaceItem item =>
      bool_decide (Item.Description item ≠ EmptyString)
  | _ => true
  end.

(** The call is not [AddRel] with the reserved description key. *)
Definition avoids_reserved (o : op) : bool :=
  match o with
  | OpAddRel rel _ => bool_decide (rel ≠ DescriptionRel)
  | _ => true
  end.

(** ** Predicates and reference functions of the statements *)

(** The entry is keyed with the reserved description key. *)
Definition is_description (r : Rel.t) : Prop := Rel.Rel r = DescriptionRel.

(** The store holds no entry keyed with the reserved description key. *)
Definition no_description (md : list Rel.t) : Prop :=
  Forall (fun r => Rel.Rel r ≠ DescriptionRel) md.

(** What [replace(rel, val)] does to one entry, in the words of the
    specification: the value of a matching entry is overwritten. *)
Definition replaced (rel val : string) (r : Rel.t) : Rel.t :=
  if decide (Rel.Rel r = rel) then Rel.mk (Rel.Rel r) val else r.

(** [values_for(rel)] in the words of the specification: the values of all
    entries matching [rel], in store order. *)
Definition values_for (rel : string) (md : list Rel.t) : list string :=
  Rel.Val <$> filter (fun r => Rel.Rel r = rel) md.

(** The description that a scan of the metadata array [md] leaves in an
    entity whose description was [d]: the value of the last entry with the
    reserved key, if there is one. *)
Definition scanned_description (d : string) (md : list Rel.t) : string :=
  default d (Rel.Val <$> last (filter is_description md)).

(** The round trip of a catalogue when the library reads back every string
    as it was written, which it does for valid UTF-8: Parse of what
    MarshalJSON hands to the encoder.  [json_roundtrip] below is the round
    trip for every catalogue. *)
Definition roundtrip (h : HyperCat.t) : option HyperCat.t * option error :=
  Parse (fst (HyperCat.MarshalJSON h)).

(** ** Strings through encoding/json *)

(** The bytes of U+FFFD, which the library writes in place of a byte that
    does not start a valid UTF-8 sequence. *)
Definition RuneError : string :=
  String (Ascii.ascii_of_N 0xEF)
    (String (Ascii.ascii_of_N 0xBF) (String (Ascii.ascii_of_N 0xBD) EmptyString)).

(** The table [first] of [unicode/utf8] for a leading byte that is not
    ASCII: the length of the sequence it starts and the range accepted for
    the second byte; [None] for a byte that cannot lead a sequence. *)
Definition utf8_first (b : N) : option (nat * N * N) :=
  if (b <? 0xC2)%N then None
  else if (b <=? 0xDF)%N then Some (2, 0x80%N, 0xBF%N)
  else if (b =? 0xE0)%N then Some (3, 0xA0%N, 0xBF%N)
  else if (b <=? 0xEC)%N then Some (3, 0x80%N, 0xBF%N)
  else if (b =? 0xED)%N then Some (3, 0x80%N, 0x9F%N)
  else if (b <=? 0xEF)%N then Some (3, 0x80%N, 0xBF%N)
  else if (b =? 0xF0)%N then Some (4, 0x90%N, 0xBF%N)
  else if (b <=? 0xF3)%N then Some (4, 0x80%N, 0xBF%N)
  else if (b =? 0xF4)%N then Some (4, 0x80%N, 0x8F%N)
  else None.

(** The byte lies in the range [lo..hi]. *)
Definition utf8_between (lo hi : N) (b : Ascii.ascii) : bool :=
  (lo <=? Ascii.N_of_ascii b)%N && (Ascii.N_of_ascii b <=? hi)%N.

(** A Go string after [json.Marshal] has written it and [json.Unmarshal]
    has read it back.  The encoder walks the string with
    [utf8.DecodeRuneInString]: an ASCII byte and a valid sequence come back
    as they are (the escapes the encoder writes for some of them are undone
    by the decoder), and a byte at which no valid sequence starts is written
    as U+FFFD, the walk going on at the next byte. *)
Fixpoint json_string (s : string) : string :=
  match s with
  | EmptyString => EmptyString
  | String b0 t0 =>
      if (Ascii.N_of_ascii b0 <? 0x80)%N then String b0 (json_string t0)
      else
        let invalid := RuneError +:+ json_string t0 in
        match utf8_first (Ascii.N_of_ascii b0), t0 with
        | Some (2, lo, hi), String b1 t1 =>
            if utf8_between lo hi b1
            then String b0 (String b1 (json_string t1))
            else invalid
        | Some (3, lo, hi), String b1 (String b2 t2) =>
            if utf8_between lo hi b1 && utf8_between 0x80 0xBF b2
            then String b0 (String b1 (String b2 (json_string t2)))
            else invalid
        | Some (4, lo, hi), String b1 (String b2 (String b3 t3)) =>
            if utf8_between lo hi b1 && utf8_between 0x80 0xBF b2
               && utf8_between 0x80 0xBF b3
            then String b0 (String b1 (String b2 (String b3 (json_string t3))))
            else invalid
        | _, _ => invalid
        end
  end.

(** The string is valid UTF-8: the library reads it back as written.  (A
    string that is not valid comes back longer, each replaced byte giving
    three.) *)
Definition valid_utf8 (s : string) : bool := bool_decide (json_string s = s).

(** A relation, an item object and a whole text after the library has
    written them and read them back. *)
Definition json_Rel (r : Rel.t) : Rel.t :=
  Rel.mk (json_string (Rel.Rel r)) (json_string (Rel.Val r)).

Definition json_wireItem (w : wireItem) : wireItem :=
  mkWireItem (json_string (wire_href w)) (json_Rel <$> wire_item_metadata w).

Definition json_text (b : wire) : wire :=
  match b with
  | Malformed => Malformed
  | Document items item_metadata =>
      Document (json_wireItem <$> items) (json_Rel <$> item_metadata)
  end.

(** The round trip of a catalogue through the library: Parse of the text
    that [json.Marshal] writes for what MarshalJSON hands to it. *)
Definition json_roundtrip (h : HyperCat.t) : option HyperCat.t * option error :=
  Parse (json_text (fst (HyperCat.MarshalJSON h))).

(** Both strings of the relation are valid UTF-8. *)
Definition Rel_valid_utf8 (r : Rel.t) : bool :=
  valid_utf8 (Rel.Rel r) && valid_utf8 (Rel.Val r).

(** Every string of the item, and of the catalogue, is valid UTF-8. *)
Definition Item_valid_utf8 (i : Item.t) : bool :=
  valid_utf8 (Item.Href i) && forallb Rel_valid_utf8 (Item.Metadata i)
  && valid_utf8 (Item.Description i).

Definition HyperCat_valid_utf8 (h : HyperCat.t) : bool :=
  forallb Item_valid_utf8 (HyperCat.Items h)
  && forallb Rel_valid_utf8 (HyperCat.Metadata h)
  && valid_utf8 (HyperCat.Description h).

(** The strings that the call can write into the store are valid UTF-8:
    the key and the value of AddRel, the value of ReplaceRel. *)
Definition op_valid_utf8 (o : op) : bool :=
  match o with
  | OpAddRel rel val => valid_utf8 rel && valid_utf8 val
  | OpReplaceRel _ val => valid_utf8 val
  | _ => true
  end.

(** * Properties *)

(** ** The relation store: AddRel, ReplaceRel, Rels, Vals *)

Section relation_store.
Implicit Types (h : HyperCat.t) (md : list Rel.t) (r : Rel.t).

Lemma AddRel_Metadata rel val h :
  HyperCat.Metadata (HyperCat.AddRel rel val h)
  = HyperCat.Metadata h ++ [Rel.mk rel val].
Proof. reflexivity. Qed.

(** The assignment of the loop writes [replaced rel val r] at [i] whether the
    test succeeds or not. *)
Lemma ReplaceRel_iteration rel val i h r :
  HyperCat.Metadata h !! i = Some r →
  (if decide (Rel.Rel r = rel)
   then HyperCat.set_Metadata (<[i := Rel.mk rel val]> (HyperCat.Metadata h)) h
   else h)
  = HyperCat.set_Metadata (<[i := replaced rel val r]> (HyperCat.Metadata h)) h.
Proof.
  intros Hr. unfold replaced. destruct (decide (Rel.Rel r = rel)) as [->|].
  - reflexivity.
  - rewrite list_insert_id by done. by destruct h.
Qed.

(** Loop invariant of [ReplaceRel]: the entries before [i] are left as they
    are by the remaining iterations, the ones from [i] on are replaced. *)
Lemma ReplaceRel_range_spec rel val n : ∀ i h,
  i + n = length (HyperCat.Metadata h) →
  HyperCat.ReplaceRel_range rel val i n h
  = HyperCat.set_Metadata
      (take i (HyperCat.Metadata h)
       ++ (replaced rel val <$> drop i (HyperCat.Metadata h))) h.
Proof.
  induction n as [|n IH]; intros i h Hlen; simpl.
  - rewrite drop_ge, take_ge by lia. rewrite app_nil_r. by destruct h.
  - destruct (lookup_lt_is_Some_2 (HyperCat.Metadata h) i) as [r Hr]; [lia|].
    rewrite Hr, (ReplaceRel_iteration _ _ _ _ _ Hr).
    rewrite IH by (simpl; rewrite length_insert; lia).
    simpl. unfold HyperCat.set_Metadata; simpl. f_equal.
    rewrite (take_S_r _ _ (replaced rel val r))
      by (apply list_lookup_insert_eq; lia).
    rewrite take_insert_ge, drop_insert_lt by lia.
    rewrite (drop_S _ _ _ Hr). simpl. by rewrite <- app_assoc.
Qed.

Lemma ReplaceRel_spec rel val h :
  HyperCat.ReplaceRel rel val h
  = HyperCat.set_Metadata (replaced rel val <$> HyperCat.Metadata h) h.
Proof. unfold HyperCat.ReplaceRel. by rewrite ReplaceRel_range_spec. Qed.

Lemma replaced_key rel val r : Rel.Rel (replaced rel val r) = Rel.Rel r.
Proof. unfold replaced. by case_decide. Qed.

Lemma replaced_other rel val r : Rel.Rel r ≠ rel → replaced rel val r = r.
Proof. unfold replaced. by case_decide. Qed.

Lemma replaced_match rel val r :
  Rel.Rel r = rel → replaced rel val r = Rel.mk rel val.
Proof. unfold replaced. intros <-. by case_decide. Qed.

(** Loop invariant of [Rels]: the slots before [i] are written already. *)
Lemma Rels_range_spec rest : ∀ i (rels : list string),
  length rels = i + length rest →
  HyperCat.Rels_range i rest rels = take i rels ++ (Rel.Rel <$> rest).
Proof.
  induction rest as [|r rest IH]; intros i rels Hlen; simpl in *.
  - rewrite take_ge by lia. by rewrite app_nil_r.
  - rewrite IH by (rewrite length_insert; lia).
    rewrite (take_S_r _ _ (Rel.Rel r)) by (apply list_lookup_insert_eq; lia).
    rewrite take_insert_ge by lia. by rewrite <- app_assoc.
Qed.

Lemma Rels_spec h : HyperCat.Rels h = Rel.Rel <$> HyperCat.Metadata h.
Proof.
  unfold HyperCat.Rels. rewrite Rels_range_spec; [done|].
  by rewrite length_replicate.
Qed.

(** Loop invariant of [Vals]: the values found so far stay in front. *)
Lemma Vals_fold key md : ∀ vals : list string,
  foldl (fun vals rel =>
           if decide (Rel.Rel rel = key) then vals ++ [Rel.Val rel] else vals)
        vals md
  = vals ++ values_for key md.
Proof.
  unfold values_for. induction md as [|r md IH]; intros vals; simpl.
  - by rewrite app_nil_r.
  - rewrite IH, filter_cons. case_decide; simpl; [|done].
    by rewrite <- app_assoc.
Qed.

Lemma Vals_spec key h : HyperCat.Vals key h = values_for key (HyperCat.Metadata h).
Proof. unfold HyperCat.Vals. by rewrite Vals_fold. Qed.

Lemma values_for_app key md1 md2 :
  values_for key (md1 ++ md2) = values_for key md1 ++ values_for key md2.
Proof. unfold values_for. by rewrite filter_app, fmap_app. Qed.

Lemma values_for_replaced key val md :
  values_for key (replaced key val <$> md)
  = replicate (length (values_for key md)) val.
Proof.
  unfold values_for. induction md as [|r md IH]; [done|].
  rewrite fmap_cons, !filter_cons, replaced_key.
  case_decide; [|done].
  rewrite !fmap_cons, IH, replaced_match by done. reflexivity.
Qed.

End relation_store.

Lemma values_for_none key (md : list Rel.t) :
  (∀ r, r ∈ md → Rel.Rel r ≠ key) → values_for key md = [].
Proof.
  unfold values_for. induction md as [|r md IH]; intros Hno; [done|].
  rewrite filter_cons. case_decide as Hk.
  - exfalso. by apply (Hno r); [left|].
  - apply IH. intros r' Hr'. apply Hno. by right.
Qed.

Lemma replaced_none rel val (md : list Rel.t) :
  (∀ r, r ∈ md → Rel.Rel r ≠ rel) → replaced rel val <$> md = md.
Proof.
  induction md as [|r md IH]; intros Hno; [done|].
  rewrite fmap_cons, IH, replaced_other; [done| |].
  - apply Hno. by left.
  - intros r' Hr'. apply Hno. by right.
Qed.

(** C8. ReplaceRel overwrites the value of every store entry whose key equals
    [rel] and leaves every other entry as it is; the sequence of keys, the
    length of the store, the items and the description are unchanged; when no
    entry matches the catalogue is unchanged (the method has no error
    result).  On a fresh catalogue, AddRel(k,v1); AddRel(k,v2);
    ReplaceRel(k,v3) followed by Vals(k) yields [v3; v3]. *)
Theorem ReplaceRel_overwrites_every_match (rel val : string) (h : HyperCat.t) :
  let h' := HyperCat.ReplaceRel rel val h in
  (∀ i r, HyperCat.Metadata h !! i = Some r →
     HyperCat.Metadata h' !! i
     = Some (if decide (Rel.Rel r = rel) then Rel.mk rel val else r))
  ∧ HyperCat.Rels h' = HyperCat.Rels h
  ∧ length (HyperCat.Metadata h') = length (HyperCat.Metadata h)
  ∧ HyperCat.Items h' = HyperCat.Items h
  ∧ HyperCat.Description h' = HyperCat.Description h
  ∧ ((∀ r, r ∈ HyperCat.Metadata h → Rel.Rel r ≠ rel) → h' = h)
  ∧ (∀ d k v1 v2 v3,
       HyperCat.Vals k
         (HyperCat.ReplaceRel k v3
            (HyperCat.AddRel k v2 (HyperCat.AddRel k v1 (NewHyperCat d))))
       = [v3; v3])
  ∧ (∀ c k v1 v2 v3,
       HyperCat.Vals k
         (HyperCat.ReplaceRel k v3 (HyperCat.AddRel k v2 (HyperCat.AddRel k v1 c)))
       = replicate (length (HyperCat.Vals k c)) v3 ++ [v3; v3]).
Proof.
  intros h'. subst h'. rewrite !Rels_spec, ReplaceRel_spec. simpl.
  split; [|split; [|split; [|split; [|split; [|split; [|split]]]]]].
  - intros i r Hr. rewrite list_lookup_fmap, Hr. simpl. f_equal.
    unfold replaced. case_decide as Hk; [|done]. by rewrite Hk.
  - rewrite <- list_fmap_compose. apply list_fmap_ext.
    intros i r _. apply replaced_key.
  - by rewrite length_fmap.
  - reflexivity.
  - reflexivity.
  - intros Hno. rewrite replaced_none by done. by destruct h.
  - intros d k v1 v2 v3. rewrite Vals_spec, ReplaceRel_spec.
    cbn [HyperCat.Metadata HyperCat.set_Metadata].
    rewrite values_for_replaced, !AddRel_Metadata, !values_for_app.
    unfold values_for. rewrite !filter_cons, !decide_True by done.
    reflexivity.
  - intros c k v1 v2 v3. rewrite !Vals_spec, ReplaceRel_spec.
    cbn [HyperCat.Metadata HyperCat.set_Metadata].
    rewrite values_for_replaced, !AddRel_Metadata, !values_for_app, !length_app.
    rewrite <- Nat.add_assoc, replicate_add. f_equal.
    unfold values_for. rewrite !filter_cons, !decide_True by done.
    reflexivity.
Qed.

(** C9. AddRel appends one entry and has no error result; on a fresh
    catalogue AddRel(k,v1); AddRel(k,v2) followed by Vals(k) returns
    [v1; v2]; Vals returns the values of all matching entries in store order,
    and the empty sequence when no entry matches. *)
Theorem AddRel_appends_and_Vals_collects :
  (∀ rel val h,
     HyperCat.Metadata (HyperCat.AddRel rel val h)
     = HyperCat.Metadata h ++ [Rel.mk rel val]
     ∧ HyperCat.Items (HyperCat.AddRel rel val h) = HyperCat.Items h
     ∧ HyperCat.Description (HyperCat.AddRel rel val h) = HyperCat.Description h)
  ∧ (∀ d k v1 v2,
       HyperCat.Vals k (HyperCat.AddRel k v2 (HyperCat.AddRel k v1 (NewHyperCat d)))
       = [v1; v2])
  ∧ (∀ c k v1 v2,
       HyperCat.Vals k (HyperCat.AddRel k v2 (HyperCat.AddRel k v1 c))
       = HyperCat.Vals k c ++ [v1; v2])
  ∧ (∀ key h, HyperCat.Vals key h = values_for key (HyperCat.Metadata h))
  ∧ (∀ key h, (∀ r, r ∈ HyperCat.Metadata h → Rel.Rel r ≠ key) →
       HyperCat.Vals key h = []).
Proof.
  split; [|split; [|split; [|split]]].
  - intros rel val h. by repeat split.
  - intros d k v1 v2. rewrite Vals_spec. simpl. unfold values_for.
    rewrite !filter_cons, !decide_True by done. reflexivity.
  - intros c k v1 v2. rewrite !Vals_spec, !AddRel_Metadata, !values_for_app.
    rewrite <- app_assoc. f_equal.
    unfold values_for. rewrite !filter_cons, !decide_True by done.
    reflexivity.
  - apply Vals_spec.
  - intros key h Hno. rewrite Vals_spec. by apply values_for_none.
Qed.

Lemma ReplaceRel_overwrites_every_match_witness :
  let h := HyperCat.AddRel "k" "v2"
             (HyperCat.AddRel "j" "w" (HyperCat.AddRel "k" "v1" (NewHyperCat "d"))) in
  HyperCat.Metadata (HyperCat.ReplaceRel "k" "v3" h) !! 2 = Some (Rel.mk "k" "v3")
  ∧ HyperCat.Metadata (HyperCat.ReplaceRel "k" "v3" h) !! 1 = Some (Rel.mk "j" "w")
  ∧ HyperCat.ReplaceRel "z" "v3" h = h.
Proof.
  intros h. split; [|split].
  - exact (proj1 (ReplaceRel_overwrites_every_match "k" "v3" h)
             2 (Rel.mk "k" "v2") eq_refl).
  - exact (proj1 (ReplaceRel_overwrites_every_match "k" "v3" h)
             1 (Rel.mk "j" "w") eq_refl).
  - apply (ReplaceRel_overwrites_every_match "z" "v3" h).
    apply Forall_forall. by repeat constructor.
Defined.

Lemma AddRel_appends_and_Vals_collects_witness :
  HyperCat.Vals "z" (HyperCat.AddRel "k" "v1" (NewHyperCat "d")) = [].
Proof.
  apply AddRel_appends_and_Vals_collects.
  apply Forall_forall. by repeat constructor.
Defined.

(** ** The item sequence: AddItem, ReplaceItem *)

Lemma AddItem_range_found item (items : list Item.t) :
  (∃ i, i ∈ items ∧ Item.Href i = Item.Href item) →
  HyperCat.AddItem_range item items = Some (DuplicateHref (Item.Href item)).
Proof.
  induction items as [|i items IH]; intros (j & Hj & Hhref); simpl.
  - by apply elem_of_nil in Hj.
  - case_decide as Hi; [done|].
    apply elem_of_cons in Hj as [->|Hj]; [congruence|]. apply IH. eauto.
Qed.

Lemma AddItem_range_fresh item (items : list Item.t) :
  (∀ i, i ∈ items → Item.Href i ≠ Item.Href item) →
  HyperCat.AddItem_range item items = None.
Proof.
  induction items as [|i items IH]; intros Hfresh; simpl; [done|].
  case_decide as Hi.
  - exfalso. apply (Hfresh i); [by left|done].
  - apply IH. intros j Hj. apply Hfresh. by right.
Qed.

(** C6. Adding an item whose href equals the href of an existing item fails
    with the DuplicateHref error and leaves the catalogue unchanged; adding
    an item whose href matches no existing item succeeds and appends it at
    the end of the item sequence, the rest of the catalogue unchanged. *)
Theorem AddItem_duplicate_or_append (item : Item.t) (h : HyperCat.t) :
  ((∃ i, i ∈ HyperCat.Items h ∧ Item.Href i = Item.Href item) →
     HyperCat.AddItem item h = (h, Some (DuplicateHref (Item.Href item))))
  ∧ ((∀ i, i ∈ HyperCat.Items h → Item.Href i ≠ Item.Href item) →
       HyperCat.AddItem item h
       = (HyperCat.mk (HyperCat.Items h ++ [item])
            (HyperCat.Metadata h) (HyperCat.Description h), None)).
Proof.
  unfold HyperCat.AddItem. split; intros H.
  - by rewrite AddItem_range_found.
  - by rewrite AddItem_range_fresh.
Qed.

Lemma AddItem_duplicate_or_append_witness :
  let h := fst (HyperCat.AddItem (NewItem "/a" "A") (NewHyperCat "d")) in
  HyperCat.AddItem (NewItem "/a" "again") h = (h, Some (DuplicateHref "/a"))
  ∧ HyperCat.AddItem (NewItem "/b" "B") h
    = (HyperCat.mk [NewItem "/a" "A"; NewItem "/b" "B"] [] "d", None).
Proof.
  intros h. split.
  - apply (proj1 (AddItem_duplicate_or_append (NewItem "/a" "again") h)).
    exists (NewItem "/a" "A"). split; [by left|reflexivity].
  - apply (proj2 (AddItem_duplicate_or_append (NewItem "/b" "B") h)).
    apply Forall_forall. by repeat constructor.
Defined.

(** The loop of [ReplaceItem] on the items from [index] on, when the first
    of them with the href of the new item comes after [pre]. *)
Lemma ReplaceItem_range_first newItem h (pre : list Item.t) oldItem post : ∀ index,
  (∀ i, i ∈ pre → Item.Href i ≠ Item.Href newItem) →
  Item.Href oldItem = Item.Href newItem →
  HyperCat.ReplaceItem_range newItem index (pre ++ oldItem :: post) h
  = Some (HyperCat.set_Items
            (<[index + length pre := newItem]> (HyperCat.Items h)) h).
Proof.
  induction pre as [|i pre IH]; intros index Hpre Hold; simpl.
  - rewrite decide_True by done. by rewrite Nat.add_0_r.
  - rewrite decide_False.
    + rewrite IH; [|intros j Hj; apply Hpre; by right|done].
      by rewrite Nat.add_succ_r.
    + intros Heq. apply (Hpre i); [by left|done].
Qed.

Lemma ReplaceItem_range_none newItem h (rest : list Item.t) : ∀ index,
  (∀ i, i ∈ rest → Item.Href i ≠ Item.Href newItem) →
  HyperCat.ReplaceItem_range newItem index rest h = None.
Proof.
  induction rest as [|i rest IH]; intros index Hno; simpl; [done|].
  rewrite decide_False.
  - apply IH. intros j Hj. apply Hno. by right.
  - intros Heq. apply (Hno i); [by left|done].
Qed.

(** When some item has the href, the sequence splits at the first one. *)
Lemma first_href_split href (items : list Item.t) :
  (∃ i, i ∈ items ∧ Item.Href i = href) →
  ∃ pre oldItem post,
    items = pre ++ oldItem :: post
    ∧ (∀ i, i ∈ pre → Item.Href i ≠ href)
    ∧ Item.Href oldItem = href.
Proof.
  induction items as [|j items IH]; intros (i & Hi & Hhref).
  - by apply elem_of_nil in Hi.
  - destruct (decide (Item.Href j = href)) as [Hj|Hj].
    + exists [], j, items. split; [done|]. split; [|done].
      intros k Hk. by apply elem_of_nil in Hk.
    + apply elem_of_cons in Hi as [->|Hi]; [done|].
      destruct IH as (pre & oldItem & post & -> & Hpre & Hold); [eauto|].
      exists (j :: pre), oldItem, post. split; [done|]. split; [|done].
      intros k Hk. apply elem_of_cons in Hk as [->|Hk]; [done|by apply Hpre].
Qed.

(** C7. Replacing with an item whose href equals the href of an existing
    item overwrites the first such item in place (same index, every other
    item and the rest of the catalogue unchanged) and returns no error; when
    no item has that href it fails with the ItemNotFound error and leaves
    the catalogue unchanged. *)
Theorem ReplaceItem_first_match_or_not_found (newItem : Item.t) (h : HyperCat.t) :
  (∀ pre oldItem post,
     HyperCat.Items h = pre ++ oldItem :: post →
     (∀ i, i ∈ pre → Item.Href i ≠ Item.Href newItem) →
     Item.Href oldItem = Item.Href newItem →
     HyperCat.ReplaceItem newItem h
     = (HyperCat.mk (pre ++ newItem :: post)
          (HyperCat.Metadata h) (HyperCat.Description h), None))
  ∧ ((∃ i, i ∈ HyperCat.Items h ∧ Item.Href i = Item.Href newItem) →
       snd (HyperCat.ReplaceItem newItem h) = None
       ∧ length (HyperCat.Items (fst (HyperCat.ReplaceItem newItem h)))
         = length (HyperCat.Items h))
  ∧ ((∀ i, i ∈ HyperCat.Items h → Item.Href i ≠ Item.Href newItem) →
       HyperCat.ReplaceItem newItem h
       = (h, Some (ItemNotFound (Item.Href newItem)))).
Proof.
  assert (∀ pre oldItem post,
            HyperCat.Items h = pre ++ oldItem :: post →
            (∀ i, i ∈ pre → Item.Href i ≠ Item.Href newItem) →
            Item.Href oldItem = Item.Href newItem →
            HyperCat.ReplaceItem newItem h
            = (HyperCat.mk (pre ++ newItem :: post)
                 (HyperCat.Metadata h) (HyperCat.Description h), None)) as Hfirst.
  { intros pre oldItem post Hitems Hpre Hold. unfold HyperCat.ReplaceItem.
    rewrite Hitems at 1. rewrite ReplaceItem_range_first by done.
    unfold HyperCat.set_Items. rewrite Hitems. simpl.
    rewrite (insert_app_r_alt pre) by lia. by rewrite Nat.sub_diag. }
  split; [exact Hfirst|]. split.
  - intros Hsome.
    destruct (first_href_split _ _ Hsome) as (pre & oldItem & post & Hitems & Hpre & Hold).
    rewrite (Hfirst pre oldItem post) by done. rewrite Hitems. simpl.
    split; [done|]. by rewrite !length_app.
  - intros Hno. unfold HyperCat.ReplaceItem. by rewrite ReplaceItem_range_none.
Qed.

Lemma ReplaceItem_first_match_or_not_found_witness :
  let h := HyperCat.mk [NewItem "/a" "A"; NewItem "/b" "B"; NewItem "/b" "C"] [] "d" in
  HyperCat.ReplaceItem (NewItem "/b" "new") h
  = (HyperCat.mk [NewItem "/a" "A"; NewItem "/b" "new"; NewItem "/b" "C"] [] "d", None)
  ∧ HyperCat.ReplaceItem (NewItem "/z" "new") h = (h, Some (ItemNotFound "/z")).
Proof.
  intros h. split.
  - apply (proj1 (ReplaceItem_first_match_or_not_found (NewItem "/b" "new") h)
             [NewItem "/a" "A"] (NewItem "/b" "B") [NewItem "/b" "C"]).
    + reflexivity.
    + apply Forall_forall. by repeat constructor.
    + reflexivity.
  - apply (proj2 (proj2 (ReplaceItem_first_match_or_not_found (NewItem "/z" "new") h))).
    apply Forall_forall. by repeat constructor.
Defined.

(** ** The codec: scanning the metadata array *)

Lemma no_description_filter (md : list Rel.t) :
  no_description md → filter (fun r => Rel.Rel r ≠ DescriptionRel) md = md.
Proof.
  induction 1 as [|r md Hr _ IH]; [done|].
  by rewrite filter_cons, decide_True, IH.
Qed.

Lemma no_description_filtered (md : list Rel.t) :
  no_description (filter (fun r => Rel.Rel r ≠ DescriptionRel) md).
Proof.
  induction md as [|r md IH]; [constructor|].
  rewrite filter_cons. case_decide; [by constructor|done].
Qed.

Lemma no_description_none (md : list Rel.t) :
  no_description md → filter is_description md = [].
Proof.
  induction 1 as [|r md Hr _ IH]; [done|].
  by rewrite filter_cons, decide_False, IH.
Qed.

Lemma scanned_description_cons_description d r (md : list Rel.t) :
  is_description r →
  scanned_description d (r :: md) = scanned_description (Rel.Val r) md.
Proof.
  intros Hr. unfold scanned_description.
  rewrite filter_cons, decide_True, last_cons by done.
  by destruct (last (filter is_description md)).
Qed.

Lemma scanned_description_cons_other d r (md : list Rel.t) :
  ¬ is_description r →
  scanned_description d (r :: md) = scanned_description d md.
Proof.
  intros Hr. unfold scanned_description. by rewrite filter_cons, decide_False.
Qed.

Lemma scanned_description_absent d (md : list Rel.t) :
  no_description md → scanned_description d md = d.
Proof.
  intros Hmd. unfold scanned_description. by rewrite no_description_none.
Qed.

(** The value of the last entry with the reserved key wins. *)
Lemma scanned_description_last d (pre post : list Rel.t) v :
  no_description post →
  scanned_description d (pre ++ Rel.mk DescriptionRel v :: post) = v.
Proof.
  intros Hpost. unfold scanned_description.
  rewrite filter_app, filter_cons, decide_True by reflexivity.
  rewrite (no_description_none post) by done. by rewrite last_snoc.
Qed.

(** Loop invariant of the scan of [HyperCat.UnmarshalJSON]. *)
Lemma UnmarshalJSON_scan (md : list Rel.t) : ∀ h : HyperCat.t,
  foldl HyperCat.UnmarshalJSON_step h md
  = HyperCat.mk (HyperCat.Items h)
      (HyperCat.Metadata h ++ filter (fun r => Rel.Rel r ≠ DescriptionRel) md)
      (scanned_description (HyperCat.Description h) md).
Proof.
  induction md as [|r md IH]; intros h; simpl.
  - rewrite app_nil_r. by destruct h.
  - rewrite IH, filter_cons. unfold HyperCat.UnmarshalJSON_step.
    destruct (decide (Rel.Rel r = DescriptionRel)) as [Hr|Hr]; simpl.
    + rewrite decide_False by (intros Hn; by apply Hn).
      by rewrite scanned_description_cons_description.
    + rewrite decide_True by done.
      rewrite scanned_description_cons_other by done.
      by rewrite <- app_assoc.
Qed.

(** The same invariant for the scan of an item. *)
Lemma Item_UnmarshalJSON_scan (md : list Rel.t) : ∀ i : Item.t,
  foldl (fun i rel =>
           if decide (Rel.Rel rel = DescriptionRel)
           then Item.set_Description (Rel.Val rel) i
           else Item.set_Metadata (Item.Metadata i ++ [rel]) i)
        i md
  = Item.mk (Item.Href i)
      (Item.Metadata i ++ filter (fun r => Rel.Rel r ≠ DescriptionRel) md)
      (scanned_description (Item.Description i) md).
Proof.
  induction md as [|r md IH]; intros i; simpl.
  - rewrite app_nil_r. by destruct i.
  - rewrite IH, filter_cons.
    destruct (decide (Rel.Rel r = DescriptionRel)) as [Hr|Hr]; simpl.
    + rewrite decide_False by (intros Hn; by apply Hn).
      by rewrite scanned_description_cons_description.
    + rewrite decide_True by done.
      rewrite scanned_description_cons_other by done.
      by rewrite <- app_assoc.
Qed.

(** The only error of the decoder of an item is the missing description. *)
Lemma Item_UnmarshalJSON_error b i i' err :
  Item.UnmarshalJSON b i = (i', Some err) → err = MissingDescription.
Proof. unfold Item.UnmarshalJSON. case_decide; congruence. Qed.

Lemma json_Unmarshal_Items_error (items : list wireItem) err :
  json_Unmarshal_Items items = inr err → err = MissingDescription.
Proof.
  induction items as [|w items IH]; simpl; [done|].
  destruct (Item.UnmarshalJSON w Item.zero) as [i [e|]] eqn:Hw.
  - intros [= <-]. by eapply Item_UnmarshalJSON_error.
  - destruct (json_Unmarshal_Items items); [done|]. intros [= <-]. by apply IH.
Qed.

(** In a document whose description is missing after the scan, the error
    is the same whether it comes from an item or from the catalogue. *)
Lemma UnmarshalJSON_Document_missing items md (h : HyperCat.t) :
  scanned_description (HyperCat.Description h) md = EmptyString →
  snd (HyperCat.UnmarshalJSON (Document items md) h) = Some MissingDescription.
Proof.
  intros Hd. unfold HyperCat.UnmarshalJSON, json_Unmarshal_tempCat.
  destruct (json_Unmarshal_Items items) as [its|err] eqn:Hits; simpl.
  - rewrite UnmarshalJSON_scan. simpl. by rewrite decide_True.
  - by rewrite (json_Unmarshal_Items_error _ _ Hits).
Qed.

Lemma Parse_error (b : wire) err :
  snd (HyperCat.UnmarshalJSON b HyperCat.zero) = Some err →
  Parse b = (None, Some err).
Proof.
  unfold Parse. destruct (HyperCat.UnmarshalJSON b HyperCat.zero) as [cat [e|]]; simpl;
    congruence.
Qed.

Lemma json_Marshal_Items_spec (items : list Item.t) :
  json_Marshal_Items items = (fst ∘ Item.MarshalJSON <$> items, None).
Proof.
  induction items as [|i items IH]; simpl; [done|]. by rewrite IH.
Qed.

Lemma MarshalJSON_described (h : HyperCat.t) :
  HyperCat.Description h ≠ EmptyString →
  HyperCat.MarshalJSON h
  = (Document (fst ∘ Item.MarshalJSON <$> HyperCat.Items h)
       (HyperCat.Metadata h
        ++ [Rel.mk DescriptionRel (HyperCat.Description h)]), None).
Proof.
  intros Hd. unfold HyperCat.MarshalJSON. rewrite json_Marshal_Items_spec.
  by rewrite decide_True.
Qed.

Lemma MarshalJSON_undescribed (h : HyperCat.t) :
  HyperCat.Description h = EmptyString →
  HyperCat.MarshalJSON h
  = (Document (fst ∘ Item.MarshalJSON <$> HyperCat.Items h)
       (HyperCat.Metadata h), None).
Proof.
  intros Hd. unfold HyperCat.MarshalJSON. rewrite json_Marshal_Items_spec.
  rewrite decide_False; [done|]. intros Hn. by apply Hn.
Qed.

(** C4. The metadata array that MarshalJSON hands to the encoder is the
    store in its order followed by the one relation (DescriptionRel,
    description) when the description is not empty, and the store itself
    when the description is the empty string. *)
Theorem MarshalJSON_appends_description (h : HyperCat.t) :
  (HyperCat.Description h ≠ EmptyString →
     HyperCat.MarshalJSON h
     = (Document (fst ∘ Item.MarshalJSON <$> HyperCat.Items h)
          (HyperCat.Metadata h
           ++ [Rel.mk DescriptionRel (HyperCat.Description h)]), None))
  ∧ (HyperCat.Description h = EmptyString →
       HyperCat.MarshalJSON h
       = (Document (fst ∘ Item.MarshalJSON <$> HyperCat.Items h)
            (HyperCat.Metadata h), None)).
Proof.
  split; [apply MarshalJSON_described|apply MarshalJSON_undescribed].
Qed.

Lemma MarshalJSON_appends_description_witness :
  HyperCat.MarshalJSON (HyperCat.AddRel "k" "v" (NewHyperCat "d"))
  = (Document [] [Rel.mk "k" "v"; Rel.mk DescriptionRel "d"], None)
  ∧ HyperCat.MarshalJSON (HyperCat.AddRel "k" "v" (NewHyperCat EmptyString))
    = (Document [] [Rel.mk "k" "v"], None).
Proof.
  split.
  - apply (proj1 (MarshalJSON_appends_description
                    (HyperCat.AddRel "k" "v" (NewHyperCat "d")))).
    discriminate.
  - apply (proj2 (MarshalJSON_appends_description
                    (HyperCat.AddRel "k" "v" (NewHyperCat EmptyString)))).
    reflexivity.
Defined.

(** C5. When the library has decoded the document, the scan of
    UnmarshalJSON appends to the store, in wire order, exactly the entries
    of the metadata array whose key is not DescriptionRel, and sets the
    description to the value of the last entry whose key is DescriptionRel
    (leaving it as it was when there is none). *)
Theorem UnmarshalJSON_splits_description
    (items : list wireItem) (md : list Rel.t) (its : list Item.t) (h : HyperCat.t) :
  json_Unmarshal_Items items = inl its →
  let h' := fst (HyperCat.UnmarshalJSON (Document items md) h) in
  HyperCat.Metadata h'
  = HyperCat.Metadata h ++ filter (fun r => Rel.Rel r ≠ DescriptionRel) md
  ∧ no_description (filter (fun r => Rel.Rel r ≠ DescriptionRel) md)
  ∧ HyperCat.Description h' = scanned_description (HyperCat.Description h) md
  ∧ (∀ pre v post,
       md = pre ++ Rel.mk DescriptionRel v :: post → no_description post →
       HyperCat.Description h' = v)
  ∧ (no_description md → HyperCat.Description h' = HyperCat.Description h).
Proof.
  intros Hits h'. subst h'.
  unfold HyperCat.UnmarshalJSON, json_Unmarshal_tempCat. rewrite Hits. simpl.
  rewrite UnmarshalJSON_scan.
  assert (∀ (c : HyperCat.t) (e : option error),
            fst (if decide (HyperCat.Description c = EmptyString)
                 then (c, e) else (c, None)) = c) as Hfst
    by (intros c e; by case_decide).
  rewrite Hfst. simpl. split; [done|]. split; [apply no_description_filtered|].
  split; [done|]. split.
  - intros pre v post -> Hpost. by apply scanned_description_last.
  - apply scanned_description_absent.
Qed.

Lemma UnmarshalJSON_splits_description_witness :
  let md := [Rel.mk DescriptionRel "first"; Rel.mk "k" "v1";
             Rel.mk DescriptionRel "last"; Rel.mk "k" "v2"] in
  let h' := fst (HyperCat.UnmarshalJSON (Document [] md) (NewHyperCat "old")) in
  HyperCat.Metadata h' = [Rel.mk "k" "v1"; Rel.mk "k" "v2"]
  ∧ HyperCat.Description h' = "last".
Proof.
  intros md h'.
  pose proof (UnmarshalJSON_splits_description [] md [] (NewHyperCat "old") eq_refl)
    as (Hmd & _ & _ & Hlast & _).
  split; [exact Hmd|].
  apply (Hlast [Rel.mk DescriptionRel "first"; Rel.mk "k" "v1"] "last" [Rel.mk "k" "v2"]).
  - reflexivity.
  - by repeat constructor.
Defined.

(** C2. Decoding a document whose top-level metadata array has no entry
    keyed with DescriptionRel fails with the MissingDescription error: Parse
    returns that error, and so does UnmarshalJSON on a receiver that has no
    description yet; whenever Parse returns an error it returns no
    catalogue. *)
Theorem Parse_missing_description (items : list wireItem) (md : list Rel.t) :
  no_description md →
  Parse (Document items md) = (None, Some MissingDescription)
  ∧ (∀ h, HyperCat.Description h = EmptyString →
       snd (HyperCat.UnmarshalJSON (Document items md) h) = Some MissingDescription)
  ∧ (∀ b err, snd (Parse b) = Some err → fst (Parse b) = None).
Proof.
  intros Hmd. split; [|split].
  - apply Parse_error, UnmarshalJSON_Document_missing.
    by rewrite scanned_description_absent.
  - intros h Hd. apply UnmarshalJSON_Document_missing.
    by rewrite scanned_description_absent.
  - intros b err. unfold Parse.
    by destruct (HyperCat.UnmarshalJSON b HyperCat.zero) as [cat [e|]].
Qed.

Lemma Parse_missing_description_witness :
  Parse (Document [mkWireItem "/a" [Rel.mk DescriptionRel "A"]]
           [Rel.mk SupportsSearchRel "simple"])
  = (None, Some MissingDescription).
Proof.
  apply Parse_missing_description. by repeat constructor.
Defined.

(** C10. Decoding a document whose last metadata entry keyed with
    DescriptionRel carries the empty string fails with the
    MissingDescription error, as when no such entry is present: Parse
    returns that error and no catalogue, and UnmarshalJSON returns it on
    every receiver. *)
Theorem Parse_empty_description
    (items : list wireItem) (pre post : list Rel.t) :
  no_description post →
  let md := pre ++ Rel.mk DescriptionRel EmptyString :: post in
  Parse (Document items md) = (None, Some MissingDescription)
  ∧ (∀ h, snd (HyperCat.UnmarshalJSON (Document items md) h)
          = Some MissingDescription).
Proof.
  intros Hpost md. subst md. split.
  - apply Parse_error, UnmarshalJSON_Document_missing.
    by apply scanned_description_last.
  - intros h. apply UnmarshalJSON_Document_missing.
    by apply scanned_description_last.
Qed.

Lemma Parse_empty_description_witness :
  Parse (Document []
           [Rel.mk DescriptionRel "Catalog Name"; Rel.mk "k" "v";
            Rel.mk DescriptionRel EmptyString; Rel.mk "j" "w"])
  = (None, Some MissingDescription).
Proof.
  apply (Parse_empty_description []
           [Rel.mk DescriptionRel "Catalog Name"; Rel.mk "k" "v"] [Rel.mk "j" "w"]).
  by repeat constructor.
Defined.

(** ** Sequences of operations: what the mutators and the decoder preserve *)

Lemma ReplaceItem_range_fields newItem (rest : list Item.t) h : ∀ index h',
  HyperCat.ReplaceItem_range newItem index rest h = Some h' →
  ∃ k, h' = HyperCat.set_Items (<[k := newItem]> (HyperCat.Items h)) h.
Proof.
  induction rest as [|i rest IH]; intros index h'; simpl; [done|].
  case_decide; [|apply IH]. intros [= <-]. eauto.
Qed.

Lemma ReplaceItem_fields newItem h :
  ∃ items, fst (HyperCat.ReplaceItem newItem h) = HyperCat.set_Items items h
    ∧ (items = HyperCat.Items h ∨ ∃ k, items = <[k := newItem]> (HyperCat.Items h)).
Proof.
  unfold HyperCat.ReplaceItem.
  destruct (HyperCat.ReplaceItem_range newItem 0 (HyperCat.Items h) h) as [h'|] eqn:Hr.
  - apply ReplaceItem_range_fields in Hr as [k ->]. simpl. eauto.
  - exists (HyperCat.Items h). simpl. split; [by destruct h|by left].
Qed.

Lemma AddItem_fields item h :
  ∃ items, fst (HyperCat.AddItem item h) = HyperCat.set_Items items h
    ∧ (items = HyperCat.Items h ∨ items = HyperCat.Items h ++ [item]).
Proof.
  unfold HyperCat.AddItem.
  destruct (HyperCat.AddItem_range item (HyperCat.Items h)); simpl.
  - exists (HyperCat.Items h). split; [by destruct h|by left].
  - eauto.
Qed.

Lemma UnmarshalJSON_Metadata b h :
  ∃ md, HyperCat.Metadata (fst (HyperCat.UnmarshalJSON b h))
        = HyperCat.Metadata h ++ filter (fun r => Rel.Rel r ≠ DescriptionRel) md.
Proof.
  unfold HyperCat.UnmarshalJSON.
  destruct (json_Unmarshal_tempCat b) as [t|err]; simpl.
  - exists (tempCat_Metadata t). rewrite UnmarshalJSON_scan. by case_decide.
  - exists []. by rewrite app_nil_r.
Qed.

(** Every call other than AddRel with the reserved key keeps the store free
    of entries keyed with the reserved key. *)
Lemma step_no_description (o : op) (h : HyperCat.t) :
  avoids_reserved o = true →
  no_description (HyperCat.Metadata h) →
  no_description (HyperCat.Metadata (step h o)).
Proof.
  unfold no_description. intros Ho Hh. destruct o as [rel val|rel val|item|item|b]; simpl.
  - apply Forall_app. split; [done|]. repeat constructor. simpl.
    by apply bool_decide_eq_true in Ho.
  - rewrite ReplaceRel_spec. simpl. apply Forall_fmap.
    eapply Forall_impl; [exact Hh|]. intros r Hr. simpl. by rewrite replaced_key.
  - by destruct (AddItem_fields item h) as (items & -> & _).
  - by destruct (ReplaceItem_fields item h) as (items & -> & _).
  - destruct (UnmarshalJSON_Metadata b h) as [md ->].
    apply Forall_app. split; [done|]. apply no_description_filtered.
Qed.

Lemma run_no_description (ops : list op) : ∀ h : HyperCat.t,
  forallb avoids_reserved ops = true →
  no_description (HyperCat.Metadata h) →
  no_description (HyperCat.Metadata (run ops h)).
Proof.
  unfold run. induction ops as [|o ops IH]; intros h Hops Hh; simpl in *; [done|].
  apply andb_prop in Hops as [Ho Hops].
  apply IH; [done|]. by apply step_no_description.
Qed.

Lemma Parse_no_description (b : wire) (cat : HyperCat.t) :
  Parse b = (Some cat, None) → no_description (HyperCat.Metadata cat).
Proof.
  unfold Parse.
  destruct (UnmarshalJSON_Metadata b HyperCat.zero) as [md Hmd].
  destruct (HyperCat.UnmarshalJSON b HyperCat.zero) as [c [e|]]; [done|].
  intros [= <-]. simpl in Hmd. rewrite Hmd. apply no_description_filtered.
Qed.

(** C3, as the code has it.  In every sequence of public operations in
    which AddRel is not called with the reserved description key, starting
    from NewHyperCat or from a catalogue that Parse returned, the relation
    store holds no entry whose key is the reserved description key. *)
Theorem store_excludes_description (ops : list op) :
  forallb avoids_reserved ops = true →
  (∀ d, no_description (HyperCat.Metadata (run ops (NewHyperCat d))))
  ∧ (∀ b cat, Parse b = (Some cat, None) →
       no_description (HyperCat.Metadata (run ops cat))).
Proof.
  intros Hops. split.
  - intros d. apply run_no_description; [done|]. constructor.
  - intros b cat Hb. apply run_no_description; [done|].
    by eapply Parse_no_description.
Qed.

Lemma store_excludes_description_witness :
  no_description
    (HyperCat.Metadata
       (run [OpAddRel "k" "v"; OpAddItem (NewItem "/a" "A");
             OpUnmarshalJSON (Document [] [Rel.mk DescriptionRel "e"; Rel.mk "j" "w"]);
             OpReplaceRel "k" "u"]
            (NewHyperCat "d"))).
Proof.
  apply (store_excludes_description
           [OpAddRel "k" "v"; OpAddItem (NewItem "/a" "A");
            OpUnmarshalJSON (Document [] [Rel.mk DescriptionRel "e"; Rel.mk "j" "w"]);
            OpReplaceRel "k" "u"]).
  reflexivity.
Defined.

(** C3 as stated fails: AddRel stores an entry under the reserved key. *)
Lemma store_excludes_description_counterexample :
  ¬ (∀ (ops : list op) (d : string),
       no_description (HyperCat.Metadata (run ops (NewHyperCat d)))).
Proof.
  intros Hall.
  specialize (Hall [OpAddRel DescriptionRel "x"] "d").
  apply Forall_inv in Hall. by apply Hall.
Qed.

(** ** The round trip *)

Lemma Item_MarshalJSON_described (i : Item.t) :
  Item.Description i ≠ EmptyString →
  fst (Item.MarshalJSON i)
  = mkWireItem (Item.Href i)
      (Item.Metadata i ++ [Rel.mk DescriptionRel (Item.Description i)]).
Proof.
  intros Hd. unfold Item.MarshalJSON.
  destruct (decide (Item.Description i ≠ EmptyString)); [done|contradiction].
Qed.

(** An item with a description is read back with its href, its description
    and the entries of its store that are not keyed with the reserved key. *)
Lemma Item_roundtrip (i : Item.t) :
  Item.Description i ≠ EmptyString →
  Item.UnmarshalJSON (fst (Item.MarshalJSON i)) Item.zero
  = (Item.mk (Item.Href i)
       (filter (fun r => Rel.Rel r ≠ DescriptionRel) (Item.Metadata i))
       (Item.Description i), None).
Proof.
  intros Hd. rewrite Item_MarshalJSON_described by done.
  unfold Item.UnmarshalJSON. cbn [wire_href wire_item_metadata].
  rewrite Item_UnmarshalJSON_scan.
  cbn [Item.Href Item.Metadata Item.Description Item.set_Href Item.zero].
  rewrite (scanned_description_last _ _ []) by constructor.
  destruct (decide (Item.Description i = EmptyString)); [contradiction|].
  rewrite filter_app, filter_cons, decide_False, filter_nil, app_nil_r; [done|].
  intros Hn. by apply Hn.
Qed.

Lemma json_Unmarshal_Items_roundtrip (items : list Item.t) :
  Forall (fun i => Item.Description i ≠ EmptyString) items →
  ∃ its, json_Unmarshal_Items (fst ∘ Item.MarshalJSON <$> items) = inl its.
Proof.
  induction 1 as [|i items Hi _ [its IH]]; [by exists []|].
  rewrite fmap_cons. cbn [json_Unmarshal_Items compose].
  rewrite Item_roundtrip, IH by done. eauto.
Qed.

(** What decoding the encoding of a catalogue returns, for every catalogue
    that has a description and whose items have one. *)
Lemma roundtrip_state (h : HyperCat.t) :
  HyperCat.Description h ≠ EmptyString →
  Forall (fun i => Item.Description i ≠ EmptyString) (HyperCat.Items h) →
  roundtrip h
  = (Some (HyperCat.mk []
             (filter (fun r => Rel.Rel r ≠ DescriptionRel) (HyperCat.Metadata h))
             (HyperCat.Description h)), None).
Proof.
  intros Hd Hitems. unfold roundtrip.
  rewrite MarshalJSON_described by done. cbn [fst].
  destruct (json_Unmarshal_Items_roundtrip _ Hitems) as [its Hits].
  unfold Parse, HyperCat.UnmarshalJSON, json_Unmarshal_tempCat.
  rewrite Hits. cbn [tempCat_Metadata]. rewrite UnmarshalJSON_scan.
  cbn [HyperCat.Items HyperCat.Metadata HyperCat.Description HyperCat.zero].
  rewrite (scanned_description_last _ _ []) by constructor.
  destruct (decide (HyperCat.Description h = EmptyString)); [contradiction|].
  rewrite filter_app, filter_cons, decide_False, filter_nil, app_nil_r; [done|].
  intros Hn. by apply Hn.
Qed.

Lemma step_Description (o : op) (h : HyperCat.t) :
  is_mutator o = true →
  HyperCat.Description (step h o) = HyperCat.Description h.
Proof.
  intros Ho. destruct o as [rel val|rel val|item|item|b]; simpl; [done| | | |done].
  - by rewrite ReplaceRel_spec.
  - by destruct (AddItem_fields item h) as (items & -> & _).
  - by destruct (ReplaceItem_fields item h) as (items & -> & _).
Qed.

Lemma step_Items_described (o : op) (h : HyperCat.t) :
  is_mutator o = true → item_described o = true →
  Forall (fun i => Item.Description i ≠ EmptyString) (HyperCat.Items h) →
  Forall (fun i => Item.Description i ≠ EmptyString) (HyperCat.Items (step h o)).
Proof.
  intros Hm Ho Hh. destruct o as [rel val|rel val|item|item|b]; simpl in *;
    [done| | | |done].
  - by rewrite ReplaceRel_spec.
  - apply bool_decide_eq_true in Ho.
    destruct (AddItem_fields item h) as (items & -> & [->| ->]); simpl; [done|].
    apply Forall_app. split; [done|]. by repeat constructor.
  - apply bool_decide_eq_true in Ho.
    destruct (ReplaceItem_fields item h) as (items & -> & [->|[k ->]]); simpl; [done|].
    by apply Forall_insert.
Qed.

Lemma run_described (ops : list op) : ∀ h : HyperCat.t,
  forallb is_mutator ops = true → forallb item_described ops = true →
  Forall (fun i => Item.Description i ≠ EmptyString) (HyperCat.Items h) →
  HyperCat.Description (run ops h) = HyperCat.Description h
  ∧ Forall (fun i => Item.Description i ≠ EmptyString) (HyperCat.Items (run ops h)).
Proof.
  unfold run. induction ops as [|o ops IH]; intros h Hm Hi Hh; simpl in *; [done|].
  apply andb_prop in Hm as [Hm Hms]. apply andb_prop in Hi as [Hi His].
  destruct (IH (step h o)) as [Hd Hf]; [done|done|by apply step_Items_described|].
  split; [|done]. by rewrite Hd, step_Description.
Qed.

(** *** Strings through the library *)

Lemma json_string_DescriptionRel : json_string DescriptionRel = DescriptionRel.
Proof. reflexivity. Qed.

Lemma json_string_nonempty (s : string) :
  s ≠ EmptyString → json_string s ≠ EmptyString.
Proof.
  destruct s as [|b0 t0]; [done|]. intros _. cbn [json_string].
  unfold RuneError. repeat case_match; discriminate.
Qed.

Lemma valid_utf8_eq (s : string) : valid_utf8 s = true → json_string s = s.
Proof. unfold valid_utf8. apply bool_decide_eq_true. Qed.

Lemma json_Rel_valid (r : Rel.t) : Rel_valid_utf8 r = true → json_Rel r = r.
Proof.
  unfold Rel_valid_utf8, json_Rel. intros [Hk Hv]%andb_prop.
  rewrite (valid_utf8_eq _ Hk), (valid_utf8_eq _ Hv). by destruct r.
Qed.

Lemma json_Rel_fmap_valid (md : list Rel.t) :
  Forall (fun r => Rel_valid_utf8 r = true) md → json_Rel <$> md = md.
Proof.
  induction 1 as [|r md Hr _ IH]; [done|].
  by rewrite fmap_cons, IH, json_Rel_valid.
Qed.

Lemma json_Rel_description (d : string) :
  json_Rel (Rel.mk DescriptionRel d) = Rel.mk DescriptionRel (json_string d).
Proof. unfold json_Rel. cbn [Rel.Rel Rel.Val]. by rewrite json_string_DescriptionRel. Qed.

(** An item with a description is decoded from the text written for it. *)
Lemma Item_json_roundtrip (i : Item.t) :
  Item.Description i ≠ EmptyString →
  ∃ i', Item.UnmarshalJSON (json_wireItem (fst (Item.MarshalJSON i))) Item.zero
        = (i', None).
Proof.
  intros Hd. rewrite Item_MarshalJSON_described by done.
  unfold json_wireItem, Item.UnmarshalJSON. cbn [wire_href wire_item_metadata].
  rewrite Item_UnmarshalJSON_scan, fmap_app, fmap_cons, fmap_nil, json_Rel_description.
  cbn [Item.Href Item.Metadata Item.Description Item.set_Href Item.zero].
  rewrite (scanned_description_last _ _ []) by constructor.
  destruct (decide (json_string (Item.Description i) = EmptyString)) as [He|He].
  - by apply json_string_nonempty in He.
  - eauto.
Qed.

Lemma json_Unmarshal_Items_json (items : list Item.t) :
  Forall (fun i => Item.Description i ≠ EmptyString) items →
  ∃ its, json_Unmarshal_Items (json_wireItem <$> (fst ∘ Item.MarshalJSON <$> items))
         = inl its.
Proof.
  induction 1 as [|i items Hi _ [its IH]]; [by exists []|].
  rewrite !fmap_cons. cbn [json_Unmarshal_Items compose].
  destruct (Item_json_roundtrip i Hi) as [i' ->]. rewrite IH. eauto.
Qed.

(** What Parse returns for the text written for a catalogue that has a
    description and whose items have one. *)
Lemma json_roundtrip_state (h : HyperCat.t) :
  HyperCat.Description h ≠ EmptyString →
  Forall (fun i => Item.Description i ≠ EmptyString) (HyperCat.Items h) →
  json_roundtrip h
  = (Some (HyperCat.mk []
             (filter (fun r => Rel.Rel r ≠ DescriptionRel)
                     (json_Rel <$> HyperCat.Metadata h))
             (json_string (HyperCat.Description h))), None).
Proof.
  intros Hd Hitems. unfold json_roundtrip.
  rewrite MarshalJSON_described by done. cbn [fst json_text].
  destruct (json_Unmarshal_Items_json _ Hitems) as [its Hits].
  rewrite fmap_app, fmap_cons, fmap_nil, json_Rel_description.
  unfold Parse, HyperCat.UnmarshalJSON, json_Unmarshal_tempCat.
  rewrite Hits. cbn [tempCat_Metadata]. rewrite UnmarshalJSON_scan.
  cbn [HyperCat.Items HyperCat.Metadata HyperCat.Description HyperCat.zero].
  rewrite (scanned_description_last _ _ []) by constructor.
  destruct (decide (json_string (HyperCat.Description h) = EmptyString)) as [He|He].
  - by apply json_string_nonempty in He.
  - rewrite filter_app, filter_cons, decide_False, filter_nil, app_nil_r; [done|].
    intros Hn. by apply Hn.
Qed.

Lemma step_valid_utf8 (o : op) (h : HyperCat.t) :
  is_mutator o = true → op_valid_utf8 o = true →
  Forall (fun r => Rel_valid_utf8 r = true) (HyperCat.Metadata h) →
  Forall (fun r => Rel_valid_utf8 r = true) (HyperCat.Metadata (step h o)).
Proof.
  intros Hm Ho Hh. destruct o as [rel val|rel val|item|item|b]; simpl in *;
    [| | | |done].
  - apply Forall_app. split; [done|]. by repeat constructor.
  - rewrite ReplaceRel_spec. cbn [HyperCat.Metadata HyperCat.set_Metadata].
    apply Forall_fmap. eapply Forall_impl; [exact Hh|].
    intros r Hr. simpl. unfold replaced. case_decide; [|done].
    unfold Rel_valid_utf8 in *. cbn [Rel.Rel Rel.Val].
    apply andb_prop in Hr as [Hk _]. by rewrite Hk, Ho.
  - by destruct (AddItem_fields item h) as (items & -> & _).
  - by destruct (ReplaceItem_fields item h) as (items & -> & _).
Qed.

Lemma run_valid_utf8 (ops : list op) : ∀ h : HyperCat.t,
  forallb is_mutator ops = true → forallb op_valid_utf8 ops = true →
  Forall (fun r => Rel_valid_utf8 r = true) (HyperCat.Metadata h) →
  Forall (fun r => Rel_valid_utf8 r = true) (HyperCat.Metadata (run ops h)).
Proof.
  unfold run. induction ops as [|o ops IH]; intros h Hm Hv Hh; simpl in *; [done|].
  apply andb_prop in Hm as [Hm Hms]. apply andb_prop in Hv as [Hv Hvs].
  apply IH; [done|done|]. by apply step_valid_utf8.
Qed.

Lemma forallb_Forall {A} (f : A → bool) (l : list A) :
  forallb f l = true → Forall (fun x => f x = true) l.
Proof.
  induction l as [|x l IH]; simpl; [constructor|].
  intros [Hx Hl]%andb_prop. constructor; [done|by apply IH].
Qed.

(** On a catalogue whose strings are all valid UTF-8 the library reads the
    text back as MarshalJSON handed it over, and the two round trips
    agree. *)
Lemma json_wireItem_valid (i : Item.t) :
  Item_valid_utf8 i = true →
  json_wireItem (fst (Item.MarshalJSON i)) = fst (Item.MarshalJSON i).
Proof.
  unfold Item_valid_utf8. intros [[Hh Hmd]%andb_prop Hd]%andb_prop.
  apply forallb_Forall in Hmd.
  unfold Item.MarshalJSON, json_wireItem. cbn [fst wire_href wire_item_metadata].
  rewrite (valid_utf8_eq _ Hh). f_equal. case_decide.
  - rewrite fmap_app, fmap_cons, fmap_nil, json_Rel_description.
    by rewrite (valid_utf8_eq _ Hd), json_Rel_fmap_valid.
  - by rewrite json_Rel_fmap_valid.
Qed.

Lemma json_roundtrip_valid (h : HyperCat.t) :
  HyperCat_valid_utf8 h = true → json_roundtrip h = roundtrip h.
Proof.
  unfold HyperCat_valid_utf8. intros [[Hi Hmd]%andb_prop Hd]%andb_prop.
  apply forallb_Forall in Hmd. apply forallb_Forall in Hi.
  unfold json_roundtrip, roundtrip. f_equal.
  unfold HyperCat.MarshalJSON. rewrite json_Marshal_Items_spec.
  cbn [fst json_text]. f_equal.
  - rewrite <- list_fmap_compose. apply list_fmap_ext. intros k i Hk. simpl.
    apply json_wireItem_valid.
    apply (proj1 (Forall_forall _ _) Hi), list_elem_of_lookup. eauto.
  - case_decide.
    + rewrite fmap_app, fmap_cons, fmap_nil, json_Rel_description.
      by rewrite (valid_utf8_eq _ Hd), json_Rel_fmap_valid.
    + by rewrite json_Rel_fmap_valid.
Qed.

(** C1, as the code has it.  For every catalogue built from NewHyperCat with
    a non-empty description by AddRel, ReplaceRel, AddItem and ReplaceItem,
    every item having a non-empty description, AddRel never being called
    with the reserved description key, and the description and the keys and
    values given to AddRel and ReplaceRel being valid UTF-8, Parse of the
    text that the library writes for the catalogue succeeds and returns a
    catalogue with the same description and the same relation sequence. *)
Theorem roundtrip_description_and_relations (d : string) (ops : list op) :
  d ≠ EmptyString →
  valid_utf8 d = true →
  forallb is_mutator ops = true →
  forallb item_described ops = true →
  forallb avoids_reserved ops = true →
  forallb op_valid_utf8 ops = true →
  let h := run ops (NewHyperCat d) in
  ∃ h', json_roundtrip h = (Some h', None)
    ∧ HyperCat.Description h' = HyperCat.Description h
    ∧ HyperCat.Metadata h' = HyperCat.Metadata h.
Proof.
  intros Hd Hvd Hm Hi Ha Hv h.
  destruct (run_described ops (NewHyperCat d) Hm Hi) as [Hdesc Hitems]; [constructor|].
  fold h in Hdesc, Hitems. simpl in Hdesc.
  assert (no_description (HyperCat.Metadata h)) as Hclean
    by (apply run_no_description; [done|constructor]).
  assert (Forall (fun r => Rel_valid_utf8 r = true) (HyperCat.Metadata h)) as Hvalid
    by (apply run_valid_utf8; [done|done|constructor]).
  eexists. split; [apply json_roundtrip_state; [by rewrite Hdesc|done]|].
  cbn [HyperCat.Description HyperCat.Metadata].
  rewrite Hdesc, (valid_utf8_eq _ Hvd), json_Rel_fmap_valid by done.
  split; [done|]. by apply no_description_filter.
Qed.

Lemma roundtrip_description_and_relations_witness :
  let h := run [OpAddRel SupportsSearchRel "simple";
                OpAddItem (Item.mk "/resource1" [Rel.mk ContentTypeRel "application/json"]
                             "Resource 1");
                OpAddRel "k" "v1"; OpReplaceRel "k" "v2"]
               (NewHyperCat "Catalog Name") in
  ∃ h', json_roundtrip h = (Some h', None)
    ∧ HyperCat.Description h' = HyperCat.Description h
    ∧ HyperCat.Metadata h' = HyperCat.Metadata h.
Proof.
  apply (roundtrip_description_and_relations "Catalog Name"
           [OpAddRel SupportsSearchRel "simple";
            OpAddItem (Item.mk "/resource1" [Rel.mk ContentTypeRel "application/json"]
                         "Resource 1");
            OpAddRel "k" "v1"; OpReplaceRel "k" "v2"]).
  - discriminate.
  - reflexivity.
  - reflexivity.
  - reflexivity.
  - reflexivity.
  - reflexivity.
Defined.

(** C1 as stated fails, in two ways that do not involve the items.  With
    every string valid UTF-8, a relation added under the reserved key is
    written next to the description and is not read back into the store.
    With no relation under the reserved key, a description that is not
    valid UTF-8 (here the one byte FF) is read back as U+FFFD. *)
Lemma roundtrip_counterexample :
  ¬ (∀ (d : string) (ops : list op),
       d ≠ EmptyString →
       forallb is_mutator ops = true →
       forallb item_described ops = true →
       valid_utf8 d = true →
       forallb op_valid_utf8 ops = true →
       let h := run ops (NewHyperCat d) in
       ∃ h', json_roundtrip h = (Some h', None)
         ∧ HyperCat.Description h' = HyperCat.Description h
         ∧ HyperCat.Metadata h' = HyperCat.Metadata h
         ∧ HyperCat.Items h' = HyperCat.Items h)
  ∧ ¬ (∀ (d : string) (ops : list op),
         d ≠ EmptyString →
         forallb is_mutator ops = true →
         forallb item_described ops = true →
         forallb avoids_reserved ops = true →
         let h := run ops (NewHyperCat d) in
         ∃ h', json_roundtrip h = (Some h', None)
           ∧ HyperCat.Description h' = HyperCat.Description h
           ∧ HyperCat.Metadata h' = HyperCat.Metadata h
           ∧ HyperCat.Items h' = HyperCat.Items h).
Proof.
  split; intros Hall.
  - destruct (Hall "d" [OpAddRel DescriptionRel "x"])
      as (h' & Hrt & _ & Hmd & _); [done|done|done|done|done|].
    vm_compute in Hrt. injection Hrt as <-. discriminate Hmd.
  - destruct (Hall (String (Ascii.ascii_of_N 0xFF) EmptyString) [])
      as (h' & Hrt & Hdesc & _); [done|done|done|done|].
    vm_compute in Hrt. injection Hrt as <-. discriminate Hdesc.
Qed.

(** The decoder leaves the items it has decoded in its temporary struct:
    the catalogue that Parse returns has no items. *)
Lemma roundtrip_loses_items :
  let h := fst (HyperCat.AddItem (NewItem "/resource1" "Resource 1")
                  (NewHyperCat "Catalog Name")) in
  HyperCat.Items h = [NewItem "/resource1" "Resource 1"]
  ∧ json_roundtrip h = (Some (HyperCat.mk [] [] "Catalog Name"), None).
Proof. split; reflexivity. Qed.

(** UnmarshalJSON on a receiver that has a description keeps it when the
    document brings none. *)
Lemma UnmarshalJSON_keeps_description :
  HyperCat.UnmarshalJSON (Document [] [Rel.mk "k" "v"]) (NewHyperCat "old")
  = (HyperCat.mk [] [Rel.mk "k" "v"] "old", None).
Proof. reflexivity. Qed.

(** * Further properties of the code *)

(** ** Keys and values of the relation store *)

Lemma values_for_nonempty key (md : list Rel.t) :
  values_for key md ≠ [] ↔ ∃ r, r ∈ md ∧ Rel.Rel r = key.
Proof.
  unfold values_for. induction md as [|r md IH].
  - split; [done|]. intros (r & Hr & _). by apply elem_of_nil in Hr.
  - rewrite filter_cons. case_decide as Hk.
    + split; [|done]. intros _. exists r. split; [by left|done].
    + rewrite IH. split.
      * intros (r' & Hr' & Hkey). exists r'. split; [by right|done].
      * intros (r' & Hr' & Hkey). apply elem_of_cons in Hr' as [->|Hr']; [done|eauto].
Qed.

(** X1. Rels returns the key of every store entry, one per entry and in
    store order; AddRel extends it by the new key; a key is listed by Rels
    exactly when Vals finds a value for it. *)
Theorem Rels_lists_keys_in_order (h : HyperCat.t) :
  HyperCat.Rels h = Rel.Rel <$> HyperCat.Metadata h
  ∧ length (HyperCat.Rels h) = length (HyperCat.Metadata h)
  ∧ (∀ i, HyperCat.Rels h !! i = Rel.Rel <$> HyperCat.Metadata h !! i)
  ∧ (∀ rel val, HyperCat.Rels (HyperCat.AddRel rel val h) = HyperCat.Rels h ++ [rel])
  ∧ (∀ key, key ∈ HyperCat.Rels h ↔ HyperCat.Vals key h ≠ []).
Proof.
  split; [apply Rels_spec|]. split; [by rewrite Rels_spec, length_fmap|].
  split; [intros i; by rewrite Rels_spec, list_lookup_fmap|].
  split.
  - intros rel val. by rewrite !Rels_spec, AddRel_Metadata, fmap_app.
  - intros key. rewrite Rels_spec, Vals_spec, values_for_nonempty, list_elem_of_fmap.
    split; intros (r & H1 & H2); exists r; by split.
Qed.

Lemma Rels_lists_keys_in_order_witness :
  "k" ∈ HyperCat.Rels (HyperCat.AddRel "k" "v" (NewHyperCat "d")).
Proof.
  apply (Rels_lists_keys_in_order (HyperCat.AddRel "k" "v" (NewHyperCat "d"))).
  discriminate.
Defined.

Lemma replaced_replaced rel v1 v2 (r : Rel.t) :
  replaced rel v2 (replaced rel v1 r) = replaced rel v2 r.
Proof.
  unfold replaced. destruct (decide (Rel.Rel r = rel)) as [Hr|Hr]; cbn [Rel.Rel].
  - by rewrite decide_True.
  - by rewrite decide_False.
Qed.

Lemma replaced_comm rel1 rel2 v1 v2 (r : Rel.t) :
  rel1 ≠ rel2 →
  replaced rel1 v1 (replaced rel2 v2 r) = replaced rel2 v2 (replaced rel1 v1 r).
Proof.
  intros Hne. unfold replaced.
  destruct (decide (Rel.Rel r = rel1)) as [H1|H1],
           (decide (Rel.Rel r = rel2)) as [H2|H2]; cbn [Rel.Rel];
    repeat case_decide; congruence.
Qed.

(** X2. ReplaceRel composes as an assignment does: a second ReplaceRel of
    the same key overrides the first, ReplaceRel of two different keys can
    be done in either order, and ReplaceRel after AddRel of the same key is
    AddRel of the new value after ReplaceRel. *)
Theorem ReplaceRel_composition (h : HyperCat.t) :
  (∀ rel v1 v2,
     HyperCat.ReplaceRel rel v2 (HyperCat.ReplaceRel rel v1 h)
     = HyperCat.ReplaceRel rel v2 h)
  ∧ (∀ rel1 rel2 v1 v2, rel1 ≠ rel2 →
       HyperCat.ReplaceRel rel1 v1 (HyperCat.ReplaceRel rel2 v2 h)
       = HyperCat.ReplaceRel rel2 v2 (HyperCat.ReplaceRel rel1 v1 h))
  ∧ (∀ rel v0 val,
       HyperCat.ReplaceRel rel val (HyperCat.AddRel rel v0 h)
       = HyperCat.AddRel rel val (HyperCat.ReplaceRel rel val h)).
Proof.
  split; [|split].
  - intros rel v1 v2. rewrite !ReplaceRel_spec. unfold HyperCat.set_Metadata.
    cbn [HyperCat.Items HyperCat.Metadata HyperCat.Description]. f_equal.
    rewrite <- list_fmap_compose. apply list_fmap_ext.
    intros i r _. apply replaced_replaced.
  - intros rel1 rel2 v1 v2 Hne. rewrite !ReplaceRel_spec. unfold HyperCat.set_Metadata.
    cbn [HyperCat.Items HyperCat.Metadata HyperCat.Description]. f_equal.
    rewrite <- !list_fmap_compose. apply list_fmap_ext.
    intros i r _. by apply replaced_comm.
  - intros rel v0 val. rewrite !ReplaceRel_spec.
    unfold HyperCat.AddRel, HyperCat.set_Metadata.
    cbn [HyperCat.Items HyperCat.Metadata HyperCat.Description]. f_equal.
    rewrite fmap_app. f_equal. simpl. f_equal. by apply replaced_match.
Qed.

Lemma ReplaceRel_composition_witness :
  let h := HyperCat.AddRel "j" "w" (HyperCat.AddRel "k" "v" (NewHyperCat "d")) in
  HyperCat.ReplaceRel "k" "a" (HyperCat.ReplaceRel "j" "b" h)
  = HyperCat.ReplaceRel "j" "b" (HyperCat.ReplaceRel "k" "a" h).
Proof.
  intros h. apply (ReplaceRel_composition h). discriminate.
Defined.

Lemma values_for_replaced_other key rel val (md : list Rel.t) :
  key ≠ rel → values_for key (replaced rel val <$> md) = values_for key md.
Proof.
  intros Hne. unfold values_for. induction md as [|r md IH]; [done|].
  rewrite fmap_cons, !filter_cons, replaced_key.
  case_decide as Hk; [|done].
  rewrite !fmap_cons, IH. f_equal.
  rewrite replaced_other; [done|congruence].
Qed.

(** X3. What Vals returns after a mutation of the store: after
    ReplaceRel(rel, val) the values of [rel] are [val] repeated once per
    entry that matched; after AddRel(rel, val) they are the old values
    followed by [val]; the values of every other key are unchanged by
    both. *)
Theorem Vals_after_mutation (rel val : string) (h : HyperCat.t) :
  HyperCat.Vals rel (HyperCat.ReplaceRel rel val h)
  = replicate (length (HyperCat.Vals rel h)) val
  ∧ HyperCat.Vals rel (HyperCat.AddRel rel val h) = HyperCat.Vals rel h ++ [val]
  ∧ (∀ key, key ≠ rel →
       HyperCat.Vals key (HyperCat.ReplaceRel rel val h) = HyperCat.Vals key h
       ∧ HyperCat.Vals key (HyperCat.AddRel rel val h) = HyperCat.Vals key h).
Proof.
  split; [|split].
  - rewrite !Vals_spec, ReplaceRel_spec. apply values_for_replaced.
  - rewrite !Vals_spec, AddRel_Metadata, values_for_app. f_equal.
    unfold values_for. by rewrite filter_cons, decide_True.
  - intros key Hne. rewrite !Vals_spec, ReplaceRel_spec, AddRel_Metadata, values_for_app.
    cbn [HyperCat.Metadata HyperCat.set_Metadata].
    split; [by apply values_for_replaced_other|].
    unfold values_for at 2. rewrite filter_cons, decide_False by (simpl; congruence).
    by rewrite app_nil_r.
Qed.

Lemma Vals_after_mutation_witness :
  let h := HyperCat.AddRel "j" "w" (HyperCat.AddRel "k" "v" (NewHyperCat "d")) in
  HyperCat.Vals "j" (HyperCat.ReplaceRel "k" "a" h) = ["w"]
  ∧ HyperCat.Vals "j" (HyperCat.AddRel "k" "a" h) = ["w"].
Proof.
  intros h.
  exact (proj2 (proj2 (Vals_after_mutation "k" "a" h)) "j" ltac:(discriminate)).
Defined.

(** ** Items: presence of an href *)

Lemma href_present_iff href (items : list Item.t) :
  href ∈ (Item.Href <$> items) ↔ ∃ i, i ∈ items ∧ Item.Href i = href.
Proof.
  rewrite list_elem_of_fmap. split; intros (i & H1 & H2); exists i; by split.
Qed.

Lemma href_absent_iff href (items : list Item.t) :
  href ∉ (Item.Href <$> items) ↔ ∀ i, i ∈ items → Item.Href i ≠ href.
Proof.
  rewrite href_present_iff. split.
  - intros Hno i Hi Hhref. apply Hno. eauto.
  - intros Hno (i & Hi & Hhref). by apply (Hno i).
Qed.

Lemma AddItem_present item (h : HyperCat.t) :
  Item.Href item ∈ (Item.Href <$> HyperCat.Items h) →
  HyperCat.AddItem item h = (h, Some (DuplicateHref (Item.Href item))).
Proof.
  intros Hin. unfold HyperCat.AddItem.
  rewrite AddItem_range_found; [done|]. by apply href_present_iff.
Qed.

Lemma AddItem_absent item (h : HyperCat.t) :
  Item.Href item ∉ (Item.Href <$> HyperCat.Items h) →
  HyperCat.AddItem item h
  = (HyperCat.set_Items (HyperCat.Items h ++ [item]) h, None).
Proof.
  intros Hin. unfold HyperCat.AddItem.
  rewrite AddItem_range_fresh; [done|]. by apply href_absent_iff.
Qed.

Lemma ReplaceItem_present newItem (h : HyperCat.t) :
  Item.Href newItem ∈ (Item.Href <$> HyperCat.Items h) →
  ∃ pre oldItem post,
    HyperCat.Items h = pre ++ oldItem :: post
    ∧ Item.Href oldItem = Item.Href newItem
    ∧ HyperCat.ReplaceItem newItem h
      = (HyperCat.set_Items (pre ++ newItem :: post) h, None).
Proof.
  intros Hin. apply href_present_iff in Hin.
  destruct (first_href_split _ _ Hin) as (pre & oldItem & post & Hitems & Hpre & Hold).
  exists pre, oldItem, post. split; [done|]. split; [done|].
  unfold HyperCat.ReplaceItem. rewrite Hitems at 1.
  rewrite ReplaceItem_range_first by done. rewrite Hitems.
  rewrite (insert_app_r_alt pre) by lia. by rewrite Nat.sub_diag.
Qed.

Lemma ReplaceItem_absent newItem (h : HyperCat.t) :
  Item.Href newItem ∉ (Item.Href <$> HyperCat.Items h) →
  HyperCat.ReplaceItem newItem h = (h, Some (ItemNotFound (Item.Href newItem))).
Proof.
  intros Hin. unfold HyperCat.ReplaceItem.
  rewrite ReplaceItem_range_none; [done|]. by apply href_absent_iff.
Qed.

(** X4. On every catalogue and for every item exactly one of AddItem and
    ReplaceItem succeeds: AddItem returns no error exactly when ReplaceItem
    returns ItemNotFound, and ReplaceItem returns no error exactly when
    AddItem returns DuplicateHref; which one depends only on whether the
    href is among the hrefs of the catalogue. *)
Theorem AddItem_ReplaceItem_complementary (item : Item.t) (h : HyperCat.t) :
  (Item.Href item ∈ (Item.Href <$> HyperCat.Items h)
   ∧ snd (HyperCat.AddItem item h) = Some (DuplicateHref (Item.Href item))
   ∧ snd (HyperCat.ReplaceItem item h) = None)
  ∨ ((Item.Href item ∉ (Item.Href <$> HyperCat.Items h))
     ∧ snd (HyperCat.AddItem item h) = None
     ∧ snd (HyperCat.ReplaceItem item h) = Some (ItemNotFound (Item.Href item))).
Proof.
  destruct (decide (Item.Href item ∈ (Item.Href <$> HyperCat.Items h))) as [Hin|Hin].
  - left. split; [done|]. rewrite AddItem_present by done.
    destruct (ReplaceItem_present _ _ Hin) as (pre & oldItem & post & _ & _ & ->).
    done.
  - right. split; [done|].
    by rewrite AddItem_absent, ReplaceItem_absent.
Qed.

(** X5. After AddItem(item), whether it succeeded or not, the href of the
    item is taken: AddItem of any item with that href fails with
    DuplicateHref and changes nothing, and ReplaceItem of any item with that
    href succeeds. *)
Theorem AddItem_takes_href (item item' : Item.t) (h : HyperCat.t) :
  Item.Href item' = Item.Href item →
  let h1 := fst (HyperCat.AddItem item h) in
  Item.Href item ∈ (Item.Href <$> HyperCat.Items h1)
  ∧ HyperCat.AddItem item' h1 = (h1, Some (DuplicateHref (Item.Href item')))
  ∧ snd (HyperCat.ReplaceItem item' h1) = None.
Proof.
  intros Hhref h1.
  assert (Item.Href item ∈ (Item.Href <$> HyperCat.Items h1)) as Hin.
  { subst h1.
    destruct (decide (Item.Href item ∈ (Item.Href <$> HyperCat.Items h))) as [Hin|Hin].
    - by rewrite AddItem_present.
    - rewrite AddItem_absent by done. simpl. rewrite fmap_app.
      apply elem_of_app. right. by left. }
  split; [done|]. rewrite <- Hhref in Hin. split.
  - by apply AddItem_present.
  - by destruct (ReplaceItem_present _ _ Hin) as (pre & oldItem & post & _ & _ & ->).
Qed.

Lemma AddItem_takes_href_witness :
  let h1 := fst (HyperCat.AddItem (NewItem "/a" "A") (NewHyperCat "d")) in
  HyperCat.AddItem (NewItem "/a" "again") h1 = (h1, Some (DuplicateHref "/a"))
  ∧ snd (HyperCat.ReplaceItem (NewItem "/a" "again") h1) = None.
Proof.
  intros h1.
  exact (proj2 (AddItem_takes_href (NewItem "/a" "A") (NewItem "/a" "again")
                  (NewHyperCat "d") eq_refl)).
Defined.

(** X6. ReplaceItem, whether it succeeds or not, leaves the sequence of
    hrefs, the number of items, the relation store and the description as
    they were; when it succeeds the new item is in the catalogue, and when
    the hrefs were unique it is the only item with its href. *)
Theorem ReplaceItem_keeps_hrefs (newItem : Item.t) (h : HyperCat.t) :
  let h' := fst (HyperCat.ReplaceItem newItem h) in
  Item.Href <$> HyperCat.Items h' = Item.Href <$> HyperCat.Items h
  ∧ length (HyperCat.Items h') = length (HyperCat.Items h)
  ∧ HyperCat.Metadata h' = HyperCat.Metadata h
  ∧ HyperCat.Description h' = HyperCat.Description h
  ∧ (snd (HyperCat.ReplaceItem newItem h) = None → newItem ∈ HyperCat.Items h')
  ∧ (snd (HyperCat.ReplaceItem newItem h) = None →
     NoDup (Item.Href <$> HyperCat.Items h) →
     ∀ i, i ∈ HyperCat.Items h' → Item.Href i = Item.Href newItem → i = newItem).
Proof.
  intros h'. subst h'.
  destruct (decide (Item.Href newItem ∈ (Item.Href <$> HyperCat.Items h))) as [Hin|Hin].
  - destruct (ReplaceItem_present _ _ Hin) as (pre & oldItem & post & Hitems & Hold & ->).
    cbn [fst snd HyperCat.set_Items HyperCat.Items HyperCat.Metadata HyperCat.Description].
    rewrite Hitems, !fmap_app, !fmap_cons, !length_app, Hold. simpl.
    repeat split; try done.
    + intros _. apply elem_of_app. right. by left.
    + intros _ Hnd i Hi Hhref.
      apply NoDup_app in Hnd as (_ & Hpre & Hnd).
      apply NoDup_cons in Hnd as [Hpost _].
      apply elem_of_app in Hi as [Hi|Hi].
      * exfalso. apply (Hpre (Item.Href newItem)); [|by left].
        apply href_present_iff. eauto.
      * apply elem_of_cons in Hi as [->|Hi]; [done|].
        exfalso. apply Hpost. apply href_present_iff. eauto.
  - rewrite ReplaceItem_absent by done. simpl. repeat split; done.
Qed.

Lemma ReplaceItem_keeps_hrefs_witness :
  let h := HyperCat.mk [NewItem "/a" "A"; NewItem "/b" "B"] [] "d" in
  NewItem "/b" "new" ∈ HyperCat.Items (fst (HyperCat.ReplaceItem (NewItem "/b" "new") h))
  ∧ ∀ i, i ∈ HyperCat.Items (fst (HyperCat.ReplaceItem (NewItem "/b" "new") h)) →
         Item.Href i = "/b" → i = NewItem "/b" "new".
Proof.
  intros h.
  pose proof (ReplaceItem_keeps_hrefs (NewItem "/b" "new") h)
    as (_ & _ & _ & _ & Hin & Honly).
  split; [exact (Hin eq_refl)|].
  apply (Honly eq_refl). apply (bool_decide_unpack _). reflexivity.
Defined.

(** ** Invariants of sequences of operations *)

Lemma UnmarshalJSON_Items b (h : HyperCat.t) :
  HyperCat.Items (fst (HyperCat.UnmarshalJSON b h)) = HyperCat.Items h.
Proof.
  unfold HyperCat.UnmarshalJSON.
  destruct (json_Unmarshal_tempCat b) as [t|err]; [|done].
  rewrite UnmarshalJSON_scan. by case_decide.
Qed.

Lemma Parse_Items b (cat : HyperCat.t) :
  Parse b = (Some cat, None) → HyperCat.Items cat = [].
Proof.
  unfold Parse. pose proof (UnmarshalJSON_Items b HyperCat.zero) as Hitems.
  destruct (HyperCat.UnmarshalJSON b HyperCat.zero) as [c [e|]]; [done|].
  by intros [= <-].
Qed.

Lemma ReplaceItem_hrefs newItem (h : HyperCat.t) :
  Item.Href <$> HyperCat.Items (fst (HyperCat.ReplaceItem newItem h))
  = Item.Href <$> HyperCat.Items h.
Proof.
  destruct (decide (Item.Href newItem ∈ (Item.Href <$> HyperCat.Items h))) as [Hin|Hin].
  - destruct (ReplaceItem_present _ _ Hin) as (pre & oldItem & post & Hitems & Hold & ->).
    simpl. by rewrite Hitems, !fmap_app, !fmap_cons, Hold.
  - by rewrite ReplaceItem_absent.
Qed.

(** The hrefs after one call: the same, or one more at the end that was not
    there before. *)
Lemma step_hrefs (o : op) (h : HyperCat.t) :
  Item.Href <$> HyperCat.Items (step h o) = Item.Href <$> HyperCat.Items h
  ∨ ∃ href, (href ∉ (Item.Href <$> HyperCat.Items h))
      ∧ Item.Href <$> HyperCat.Items (step h o)
        = (Item.Href <$> HyperCat.Items h) ++ [href].
Proof.
  destruct o as [rel val|rel val|item|item|b]; simpl.
  - by left.
  - left. by rewrite ReplaceRel_spec.
  - destruct (decide (Item.Href item ∈ (Item.Href <$> HyperCat.Items h))) as [Hin|Hin].
    + left. by rewrite AddItem_present.
    + right. exists (Item.Href item). split; [done|].
      rewrite AddItem_absent by done. simpl. by rewrite fmap_app.
  - left. apply ReplaceItem_hrefs.
  - left. by rewrite UnmarshalJSON_Items.
Qed.

(** The keys of the store after one call: the old ones, then new ones. *)
Lemma step_Rels (o : op) (h : HyperCat.t) :
  HyperCat.Rels h `prefix_of` HyperCat.Rels (step h o).
Proof.
  rewrite !Rels_spec. destruct o as [rel val|rel val|item|item|b]; simpl.
  - rewrite fmap_app. by apply prefix_app_r.
  - rewrite ReplaceRel_spec. simpl. rewrite <- list_fmap_compose.
    erewrite list_fmap_ext; [done|]. intros i r _. symmetry. apply replaced_key.
  - by destruct (AddItem_fields item h) as (items & -> & _).
  - by destruct (ReplaceItem_fields item h) as (items & -> & _).
  - destruct (UnmarshalJSON_Metadata b h) as [md ->].
    rewrite fmap_app. by apply prefix_app_r.
Qed.

Lemma run_snoc (ops : list op) (o : op) (h : HyperCat.t) :
  run (ops ++ [o]) h = step (run ops h) o.
Proof. unfold run. by rewrite foldl_app. Qed.

(** X7. Uniqueness of hrefs is an invariant of the catalogue: every sequence
    of AddRel, ReplaceRel, AddItem, ReplaceItem and UnmarshalJSON calls keeps
    the hrefs of the items pairwise different when they were so before, and
    they are so in every catalogue reached from NewHyperCat or from a
    catalogue returned by Parse. *)
Theorem hrefs_stay_unique (ops : list op) :
  (∀ h, NoDup (Item.Href <$> HyperCat.Items h) →
        NoDup (Item.Href <$> HyperCat.Items (run ops h)))
  ∧ (∀ d, NoDup (Item.Href <$> HyperCat.Items (run ops (NewHyperCat d))))
  ∧ (∀ b cat, Parse b = (Some cat, None) →
       NoDup (Item.Href <$> HyperCat.Items (run ops cat))).
Proof.
  assert (∀ h, NoDup (Item.Href <$> HyperCat.Items h) →
               NoDup (Item.Href <$> HyperCat.Items (run ops h))) as Hrun.
  { intros h Hh. induction ops as [|o ops IH] using rev_ind; [done|].
    rewrite run_snoc.
    destruct (step_hrefs o (run ops h)) as [->|(href & Hfresh & ->)]; [done|].
    apply NoDup_app. split; [done|]. split; [|apply NoDup_singleton].
    intros x Hx Hx'. apply list_elem_of_singleton in Hx'. by subst. }
  split; [exact Hrun|]. split.
  - intros d. apply Hrun. constructor.
  - intros b cat Hb. apply Hrun. rewrite (Parse_Items _ _ Hb). constructor.
Qed.

Lemma hrefs_stay_unique_witness :
  NoDup (Item.Href <$> HyperCat.Items
           (run [OpAddItem (NewItem "/c" "C"); OpAddItem (NewItem "/a" "again");
                 OpReplaceItem (NewItem "/b" "new")]
                (HyperCat.mk [NewItem "/a" "A"; NewItem "/b" "B"] [] "d"))).
Proof.
  apply (proj1 (hrefs_stay_unique
                  [OpAddItem (NewItem "/c" "C"); OpAddItem (NewItem "/a" "again");
                   OpReplaceItem (NewItem "/b" "new")])).
  apply (bool_decide_unpack _). reflexivity.
Defined.

(** X8. No operation removes or reorders anything: after every sequence of
    calls the hrefs of the catalogue start with the hrefs it had, and the
    keys of its store start with the keys it had; a sequence of the four
    mutators (no decode) leaves the description as it was. *)
Theorem operations_only_extend (ops : list op) (h : HyperCat.t) :
  (Item.Href <$> HyperCat.Items h)
    `prefix_of` (Item.Href <$> HyperCat.Items (run ops h))
  ∧ HyperCat.Rels h `prefix_of` HyperCat.Rels (run ops h)
  ∧ (forallb is_mutator ops = true →
     HyperCat.Description (run ops h) = HyperCat.Description h).
Proof.
  induction ops as [|o ops (IHi & IHr & IHd)] using rev_ind; [done|].
  rewrite run_snoc. split; [|split].
  - etrans; [exact IHi|].
    destruct (step_hrefs o (run ops h)) as [->|(href & _ & ->)]; [done|].
    by apply prefix_app_r.
  - etrans; [exact IHr|]. apply step_Rels.
  - rewrite forallb_app. simpl. intros Hm.
    apply andb_prop in Hm as [Hms Hm]. apply andb_prop in Hm as [Hm _].
    by rewrite step_Description, IHd.
Qed.

Lemma operations_only_extend_witness :
  HyperCat.Description
    (run [OpAddRel "k" "v"; OpReplaceRel "k" "w"; OpAddItem (NewItem "/a" "A")]
         (NewHyperCat "d")) = "d".
Proof.
  apply (operations_only_extend
           [OpAddRel "k" "v"; OpReplaceRel "k" "w"; OpAddItem (NewItem "/a" "A")]
           (NewHyperCat "d")).
  reflexivity.
Defined.

(** ** The decoder and the round trip, in general *)

Lemma Parse_Document_success items its (md : list Rel.t) :
  json_Unmarshal_Items items = inl its →
  scanned_description EmptyString md ≠ EmptyString →
  Parse (Document items md)
  = (Some (HyperCat.mk [] (filter (fun r => Rel.Rel r ≠ DescriptionRel) md)
             (scanned_description EmptyString md)), None).
Proof.
  intros Hits Hd. unfold Parse, HyperCat.UnmarshalJSON, json_Unmarshal_tempCat.
  rewrite Hits. cbn [tempCat_Metadata]. rewrite UnmarshalJSON_scan.
  cbn [HyperCat.Items HyperCat.Metadata HyperCat.Description HyperCat.zero app].
  by destruct (decide (scanned_description EmptyString md = EmptyString)).
Qed.

Lemma Parse_success_inv (b : wire) (cat : HyperCat.t) :
  Parse b = (Some cat, None) →
  ∃ items its md,
    b = Document items md
    ∧ json_Unmarshal_Items items = inl its
    ∧ scanned_description EmptyString md ≠ EmptyString
    ∧ cat = HyperCat.mk [] (filter (fun r => Rel.Rel r ≠ DescriptionRel) md)
              (scanned_description EmptyString md).
Proof.
  destruct b as [|items md]; [done|].
  destruct (json_Unmarshal_Items items) as [its|err] eqn:Hits.
  - destruct (decide (scanned_description EmptyString md = EmptyString)) as [Hd|Hd].
    + rewrite (Parse_error _ MissingDescription); [done|].
      by apply UnmarshalJSON_Document_missing.
    + rewrite (Parse_Document_success _ _ _ Hits Hd). intros [= <-].
      by exists items, its, md.
  - unfold Parse, HyperCat.UnmarshalJSON, json_Unmarshal_tempCat. by rewrite Hits.
Qed.

(** X9. What a failed UnmarshalJSON leaves in its receiver.  When the
    library or an item reports the error, the receiver is untouched.  When
    the document is decoded and the description is empty after the scan, the
    error is MissingDescription and the receiver has already been given the
    entries of the document that are not keyed with the reserved key. *)
Theorem UnmarshalJSON_failure_receiver (items : list wireItem) (md : list Rel.t)
    (h : HyperCat.t) :
  HyperCat.UnmarshalJSON Malformed h = (h, Some json_error)
  ∧ (∀ err, json_Unmarshal_Items items = inr err →
       HyperCat.UnmarshalJSON (Document items md) h = (h, Some err))
  ∧ (∀ its, json_Unmarshal_Items items = inl its →
       scanned_description (HyperCat.Description h) md = EmptyString →
       HyperCat.UnmarshalJSON (Document items md) h
       = (HyperCat.mk (HyperCat.Items h)
            (HyperCat.Metadata h ++ filter (fun r => Rel.Rel r ≠ DescriptionRel) md)
            EmptyString,
          Some MissingDescription)).
Proof.
  split; [done|]. split.
  - intros err Hits. unfold HyperCat.UnmarshalJSON, json_Unmarshal_tempCat.
    by rewrite Hits.
  - intros its Hits Hd. unfold HyperCat.UnmarshalJSON, json_Unmarshal_tempCat.
    rewrite Hits. cbn [tempCat_Metadata]. rewrite UnmarshalJSON_scan.
    cbn [HyperCat.Description]. rewrite Hd. by rewrite decide_True.
Qed.

Lemma UnmarshalJSON_failure_receiver_witness :
  HyperCat.UnmarshalJSON
    (Document [mkWireItem "/a" [Rel.mk "k" "v"]] [Rel.mk "j" "w"]) (NewHyperCat EmptyString)
  = (NewHyperCat EmptyString, Some MissingDescription)
  ∧ HyperCat.UnmarshalJSON
      (Document [] [Rel.mk "j" "w"; Rel.mk DescriptionRel EmptyString])
      (HyperCat.AddRel "k" "v" (NewHyperCat "old"))
    = (HyperCat.mk [] [Rel.mk "k" "v"; Rel.mk "j" "w"] EmptyString,
       Some MissingDescription).
Proof.
  split.
  - apply (UnmarshalJSON_failure_receiver
             [mkWireItem "/a" [Rel.mk "k" "v"]] [Rel.mk "j" "w"] (NewHyperCat EmptyString)).
    reflexivity.
  - apply (proj2 (proj2 (UnmarshalJSON_failure_receiver []
             [Rel.mk "j" "w"; Rel.mk DescriptionRel EmptyString]
             (HyperCat.AddRel "k" "v" (NewHyperCat "old")))) []).
    + reflexivity.
    + reflexivity.
Defined.

(** X10. Parse of a document succeeds exactly when every item is decoded
    and the value of the last metadata entry keyed with the reserved key is
    not empty; the catalogue it returns then has that value as description,
    the other metadata entries in wire order as store, and no items.  Parse
    of a text that the library rejects returns the library's error. *)
Theorem Parse_succeeds_iff (items : list wireItem) (md : list Rel.t) (cat : HyperCat.t) :
  (Parse (Document items md) = (Some cat, None)
   ↔ (∃ its, json_Unmarshal_Items items = inl its)
     ∧ scanned_description EmptyString md ≠ EmptyString
     ∧ cat = HyperCat.mk [] (filter (fun r => Rel.Rel r ≠ DescriptionRel) md)
               (scanned_description EmptyString md))
  ∧ Parse Malformed = (None, Some json_error).
Proof.
  split; [|done]. split.
  - intros Hp. apply Parse_success_inv in Hp
      as (items' & its & md' & [= <- <-] & Hits & Hd & ->). eauto.
  - intros ([its Hits] & Hd & ->). by eapply Parse_Document_success.
Qed.

Lemma Parse_succeeds_iff_witness :
  Parse (Document [mkWireItem "/a" [Rel.mk DescriptionRel "A"]]
           [Rel.mk DescriptionRel "first"; Rel.mk "k" "v"; Rel.mk DescriptionRel "last"])
  = (Some (HyperCat.mk [] [Rel.mk "k" "v"] "last"), None).
Proof.
  apply (Parse_succeeds_iff [mkWireItem "/a" [Rel.mk DescriptionRel "A"]]
           [Rel.mk DescriptionRel "first"; Rel.mk "k" "v"; Rel.mk DescriptionRel "last"]
           (HyperCat.mk [] [Rel.mk "k" "v"] "last")).
  split; [by eexists|]. split; [discriminate|reflexivity].
Defined.

(** X11. A catalogue that Parse returns has a non-empty description, and
    the reserved description key is not among its queryable relations: Rels
    does not list it and Vals finds no value for it. *)
Theorem Parse_result_well_formed (b : wire) (cat : HyperCat.t) :
  Parse b = (Some cat, None) →
  HyperCat.Description cat ≠ EmptyString
  ∧ (DescriptionRel ∉ HyperCat.Rels cat)
  ∧ HyperCat.Vals DescriptionRel cat = [].
Proof.
  intros Hp. apply Parse_success_inv in Hp as (items & its & md & _ & _ & Hd & ->).
  split; [done|].
  assert (∀ r, r ∈ filter (fun r => Rel.Rel r ≠ DescriptionRel) md →
               Rel.Rel r ≠ DescriptionRel) as Hclean
    by (apply Forall_forall, no_description_filtered).
  split.
  - rewrite Rels_spec. simpl. intros Hin.
    apply list_elem_of_fmap in Hin as (r & Hr & Hin). by apply (Hclean r).
  - rewrite Vals_spec. simpl. by apply values_for_none.
Qed.

Lemma Parse_result_well_formed_witness :
  HyperCat.Vals DescriptionRel
    (HyperCat.mk [] [Rel.mk SupportsSearchRel "simple"] "Catalog Name") = [].
Proof.
  apply (Parse_result_well_formed
           (Document [] [Rel.mk DescriptionRel "Catalog Name";
                         Rel.mk SupportsSearchRel "simple"])).
  reflexivity.
Defined.

(** X12. The round trip is the identity on what Parse returns: encoding a
    catalogue that Parse returned and parsing the result gives the same
    catalogue again. *)
Theorem roundtrip_fixes_parsed (b : wire) (cat : HyperCat.t) :
  Parse b = (Some cat, None) → roundtrip cat = (Some cat, None).
Proof.
  intros Hp. apply Parse_success_inv in Hp as (items & its & md & _ & _ & Hd & ->).
  rewrite roundtrip_state; [|done|constructor]. simpl.
  by rewrite no_description_filter by apply no_description_filtered.
Qed.

Lemma roundtrip_fixes_parsed_witness :
  roundtrip (HyperCat.mk [] [Rel.mk "k" "v"] "last")
  = (Some (HyperCat.mk [] [Rel.mk "k" "v"] "last"), None).
Proof.
  apply (roundtrip_fixes_parsed
           (Document [mkWireItem "/a" [Rel.mk DescriptionRel "A"]]
              [Rel.mk DescriptionRel "first"; Rel.mk "k" "v";
               Rel.mk DescriptionRel "last"])).
  reflexivity.
Defined.

Lemma values_for_filtered key (md : list Rel.t) :
  key ≠ DescriptionRel →
  values_for key (filter (fun r => Rel.Rel r ≠ DescriptionRel) md) = values_for key md.
Proof.
  intros Hne. unfold values_for. induction md as [|r md IH]; [done|].
  rewrite !filter_cons.
  destruct (decide (Rel.Rel r ≠ DescriptionRel)) as [Hr|Hr].
  - rewrite filter_cons. case_decide; [|done]. by rewrite !fmap_cons, IH.
  - rewrite decide_False; [done|]. intros Hk. apply Hr. congruence.
Qed.

(** X13. The encoding of a catalogue whose description is empty and whose
    store has no entry under the reserved key cannot be decoded: MarshalJSON
    writes no description relation and Parse of the result fails with
    MissingDescription.  In particular this holds for NewHyperCat with the
    empty string. *)
Theorem roundtrip_without_description (h : HyperCat.t) :
  HyperCat.Description h = EmptyString →
  no_description (HyperCat.Metadata h) →
  roundtrip h = (None, Some MissingDescription).
Proof.
  intros Hd Hmd. unfold roundtrip. rewrite MarshalJSON_undescribed by done.
  apply Parse_error, UnmarshalJSON_Document_missing.
  by apply scanned_description_absent.
Qed.

Lemma roundtrip_without_description_witness :
  roundtrip (HyperCat.AddRel "k" "v" (NewHyperCat EmptyString))
  = (None, Some MissingDescription).
Proof.
  apply roundtrip_without_description.
  - reflexivity.
  - by repeat constructor.
Defined.

(** X14. The round trip through the library of any catalogue with a
    non-empty description whose items have one, also when its store holds
    entries under the reserved key: Parse of the text written for it
    succeeds; the description comes back as the library reads it back, and
    the store comes back as the library reads back its entries, in order and
    without the ones then keyed with the reserved key, so Vals of the
    reserved key is empty.  When the description is valid UTF-8 it comes
    back unchanged; when the keys and values of the store are valid UTF-8,
    Vals of every other key is unchanged. *)
Theorem roundtrip_keeps_other_keys (h : HyperCat.t) :
  HyperCat.Description h ≠ EmptyString →
  Forall (fun i => Item.Description i ≠ EmptyString) (HyperCat.Items h) →
  ∃ h', json_roundtrip h = (Some h', None)
    ∧ HyperCat.Description h' = json_string (HyperCat.Description h)
    ∧ HyperCat.Metadata h'
      = filter (fun r => Rel.Rel r ≠ DescriptionRel)
               (json_Rel <$> HyperCat.Metadata h)
    ∧ HyperCat.Vals DescriptionRel h' = []
    ∧ (valid_utf8 (HyperCat.Description h) = true →
       HyperCat.Description h' = HyperCat.Description h)
    ∧ (Forall (fun r => Rel_valid_utf8 r = true) (HyperCat.Metadata h) →
       HyperCat.Metadata h'
       = filter (fun r => Rel.Rel r ≠ DescriptionRel) (HyperCat.Metadata h)
       ∧ ∀ key, key ≠ DescriptionRel →
                HyperCat.Vals key h' = HyperCat.Vals key h).
Proof.
  intros Hd Hitems. eexists. split; [by apply json_roundtrip_state|].
  cbn [HyperCat.Description HyperCat.Metadata].
  split; [done|]. split; [done|]. split; [|split].
  - rewrite Vals_spec. cbn [HyperCat.Metadata]. apply values_for_none.
    apply Forall_forall, no_description_filtered.
  - apply valid_utf8_eq.
  - intros Hvalid. rewrite json_Rel_fmap_valid by done. split; [done|].
    intros key Hne. rewrite !Vals_spec. cbn [HyperCat.Metadata].
    by apply values_for_filtered.
Qed.

Lemma roundtrip_keeps_other_keys_witness :
  let h := HyperCat.AddRel "k" "v2"
             (HyperCat.AddRel DescriptionRel "x"
                (HyperCat.AddRel "k" "v1" (NewHyperCat "d"))) in
  ∃ h', json_roundtrip h = (Some h', None)
    ∧ HyperCat.Description h' = "d"
    ∧ HyperCat.Metadata h' = [Rel.mk "k" "v1"; Rel.mk "k" "v2"]
    ∧ (∀ key, key ≠ DescriptionRel → HyperCat.Vals key h' = HyperCat.Vals key h).
Proof.
  intros h.
  destruct (roundtrip_keeps_other_keys h) as (h' & Hrt & Hd & Hmd & _ & _ & Hvalid).
  - discriminate.
  - constructor.
  - exists h'. split; [exact Hrt|]. split; [exact Hd|]. split; [exact Hmd|].
    apply Hvalid. by repeat constructor.
Defined.

(** X15. Encoding what Parse returned normalises the document: the entries
    that are not keyed with the reserved key come first, in wire order, then
    one description entry carrying the value of the last one of the
    document; the items array of the result is empty. *)
Theorem MarshalJSON_of_parsed (items : list wireItem) (md : list Rel.t)
    (cat : HyperCat.t) :
  Parse (Document items md) = (Some cat, None) →
  HyperCat.MarshalJSON cat
  = (Document []
       (filter (fun r => Rel.Rel r ≠ DescriptionRel) md
        ++ [Rel.mk DescriptionRel (scanned_description EmptyString md)]), None).
Proof.
  intros Hp. apply Parse_success_inv in Hp
    as (items' & its & md' & [= <- <-] & Hits & Hd & ->).
  by rewrite MarshalJSON_described.
Qed.

Lemma MarshalJSON_of_parsed_witness :
  HyperCat.MarshalJSON (HyperCat.mk [] [Rel.mk "k" "v"] "last")
  = (Document [] [Rel.mk "k" "v"; Rel.mk DescriptionRel "last"], None).
Proof.
  apply (MarshalJSON_of_parsed
           [mkWireItem "/a" [Rel.mk DescriptionRel "A"]]
           [Rel.mk DescriptionRel "first"; Rel.mk "k" "v"; Rel.mk DescriptionRel "last"]).
  reflexivity.
Defined.
